(** * snfcode: the name relay of [nameserver.py]

    A shallow embedding of the relay half of the repository:
    - [ConnectionHandler] (an [asynchat.async_chat]) pushing items of the
      shared queue to one consumer,
    - [NameServer] (an [asyncore.dispatcher]) accepting consumers up to
      [MAXCONN] and counting them,
    - [AsyncoreProcess] (a [multiprocessing.Process]) running the dispatchers,
    - the shared [multiprocessing.Queue(100)] built in the [__main__] block.

    Python [str] values are lists of code points, [bytes] are lists of byte
    values, both over [Z].  The parts of [asyncore]/[asynchat] that the
    handler inherits ([push], [initiate_send], [send], [recv], [close],
    [handle_error], the input-scanning loop of [handle_read] and the select
    loop's dispatch) are written out after the CPython 3 library sources,
    since the behaviour of the repository's overrides depends on them. *)

From Stdlib Require Import ZArith QArith List Bool Lia.
Import ListNotations.
Open Scope Z_scope.

(** ** Strings and bytes *)

Definition pystr := list Z.
Definition bytes := list Z.

(** [str.encode('utf-8')] on one code point; lone surrogates raise
    [UnicodeEncodeError] (here [None]). *)
Definition utf8_char (c : Z) : option bytes :=
  if c <? 0 then None
  else if c <? 128 then Some [c]
  else if c <? 2048 then
    Some [Z.lor 192 (Z.shiftr c 6); Z.lor 128 (Z.land c 63)]
  else if (55296 <=? c) && (c <=? 57343) then None
  else if c <? 65536 then
    Some [Z.lor 224 (Z.shiftr c 12);
          Z.lor 128 (Z.land (Z.shiftr c 6) 63);
          Z.lor 128 (Z.land c 63)]
  else if c <=? 1114111 then
    Some [Z.lor 240 (Z.shiftr c 18);
          Z.lor 128 (Z.land (Z.shiftr c 12) 63);
          Z.lor 128 (Z.land (Z.shiftr c 6) 63);
          Z.lor 128 (Z.land c 63)]
  else None.

Fixpoint utf8_encode (s : pystr) : option bytes :=
  match s with
  | [] => Some []
  | c :: s' =>
      match utf8_char c, utf8_encode s' with
      | Some b, Some r => Some (b ++ r)
      | _, _ => None
      end
  end.

(** ['\n'] *)
Definition newline : Z := 10.

(** [bytes(item + '\n', 'utf-8')] in [ConnectionHandler.handle_write]. *)
Definition frame (item : pystr) : option bytes := utf8_encode (item ++ [newline]).

(** [self.set_terminator(b"\r\n\r\n")] in [ConnectionHandler.__init__]. *)
Definition handler_terminator : bytes := [13; 10; 13; 10].

Fixpoint prefixb (p h : bytes) : bool :=
  match p, h with
  | [], _ => true
  | x :: p', y :: h' => (x =? y) && prefixb p' h'
  | _ :: _, [] => false
  end.

(** [bytes.find]: index of the first occurrence. *)
Fixpoint find_sub (h n : bytes) : option nat :=
  if prefixb n h then Some 0%nat
  else match h with
       | [] => None
       | _ :: h' => option_map S (find_sub h' n)
       end.

Definition endswith (h s : bytes) : bool := prefixb (rev s) (rev h).

(** [asynchat.find_prefix_at_end], the [while l and not ...: l -= 1] loop. *)
Fixpoint fpae_loop (h needle : bytes) (l : nat) : nat :=
  match l with
  | O => O
  | S l' => if endswith h (firstn l needle) then l else fpae_loop h needle l'
  end.

Definition find_prefix_at_end (h needle : bytes) : nat :=
  fpae_loop h needle (length needle - 1).

(** ** The shared queue: [multiprocessing.Queue(100)]

    [put] blocks while the queue holds [maxsize] items; [get(0)] raises
    [queue.Empty] on an empty queue. *)

Definition QUEUE_MAXSIZE : nat := 100.

Definition q_put (x : pystr) (q : list pystr) : option (list pystr) :=
  if (length q <? QUEUE_MAXSIZE)%nat then Some (q ++ [x]) else None.

Definition q_get_nowait (q : list pystr) : option (pystr * list pystr) :=
  match q with
  | [] => None
  | x :: q' => Some (x, q')
  end.

Definition is_nil {A} (l : list A) : bool :=
  match l with [] => true | _ => false end.

Definition q_empty (q : list pystr) : bool := is_nil q.

(** ** Relay state *)

(** One [ConnectionHandler]: [connected] and [in_map] (registered in the
    asyncore socket map) are the dispatcher's flags, [fifo] the bytes of
    [producer_fifo] not yet sent, [sent] the bytes the socket has taken,
    [in_buf] is [ac_in_buffer], [sock] the accepted socket.  [unregs] is a
    ghost counter of the calls to [server.unregister()] made by this
    handler. *)
Record Conn := mkConn {
  connected : bool;
  in_map : bool;
  fifo : bytes;
  sent : bytes;
  in_buf : bytes;
  sock : nat;
  unregs : nat
}.

(** [count] is [NameServer.__count], [queue] the shared [_queue], [conns]
    the handlers in creation order; [accepted] numbers the sockets returned
    by [accept()] and [closed] lists the sockets explicitly closed. *)
Record Sys := mkSys {
  count : Z;
  queue : list pystr;
  conns : list Conn;
  accepted : nat;
  closed : list nat
}.

(** [NameServer.MAXCONN] *)
Definition MAXCONN : Z := 10.

Definition init_sys (q : list pystr) : Sys := mkSys 0 q [] 0 [].

Inductive exn :=
| ValueError
| RuntimeError
| QueueEmpty
| UnicodeEncodeError
| OSError
| IndexError.

Definition exn_eqb (e1 e2 : exn) : bool :=
  match e1, e2 with
  | ValueError, ValueError | RuntimeError, RuntimeError
  | QueueEmpty, QueueEmpty | UnicodeEncodeError, UnicodeEncodeError
  | OSError, OSError | IndexError, IndexError => true
  | _, _ => false
  end.

(** ** A state and exception monad

    A raised exception keeps the state reached at the [raise], as Python
    does with its mutations made before it. *)

Definition M (A : Type) := Sys -> (A + exn) * Sys.

Definition ret {A} (a : A) : M A := fun s => (inl a, s).
Definition bind {A B} (m : M A) (k : A -> M B) : M B :=
  fun s => match m s with
           | (inl a, s') => k a s'
           | (inr e, s') => (inr e, s')
           end.
Definition raise {A} (e : exn) : M A := fun s => (inr e, s).
Definition catch {A} (m : M A) (h : exn -> M A) : M A :=
  fun s => match m s with
           | (inr e, s') => h e s'
           | r => r
           end.

Notation "x <- c1 ;; c2" := (bind c1 (fun x => c2))
  (at level 61, c1 at next level, right associativity).
Notation "e1 ;; e2" := (bind e1 (fun _ => e2))
  (at level 61, right associativity).

Fixpoint upd {A} (i : nat) (f : A -> A) (l : list A) : list A :=
  match l, i with
  | [], _ => []
  | x :: l', O => f x :: l'
  | x :: l', S i' => x :: upd i' f l'
  end.

Definition set_count (n : Z) (s : Sys) : Sys :=
  mkSys n (queue s) (conns s) (accepted s) (closed s).
Definition set_queue (q : list pystr) (s : Sys) : Sys :=
  mkSys (count s) q (conns s) (accepted s) (closed s).

Definition get_conn (i : nat) : M Conn :=
  fun s => match nth_error (conns s) i with
           | Some c => (inl c, s)
           | None => (inr IndexError, s)
           end.

Definition modify_conn (i : nat) (f : Conn -> Conn) : M unit :=
  fun s => (inl tt, mkSys (count s) (queue s) (upd i f (conns s))
                          (accepted s) (closed s)).

Definition note_closed (k : nat) : M unit :=
  fun s => (inl tt, mkSys (count s) (queue s) (conns s) (accepted s)
                          (closed s ++ [k])).

(** Field updates of a handler. *)
Definition incr_unregs (c : Conn) : Conn :=
  mkConn (connected c) (in_map c) (fifo c) (sent c) (in_buf c) (sock c)
         (S (unregs c)).
Definition mark_closed (c : Conn) : Conn :=
  mkConn false false (fifo c) (sent c) (in_buf c) (sock c) (unregs c).
Definition append_fifo (d : bytes) (c : Conn) : Conn :=
  mkConn (connected c) (in_map c) (fifo c ++ d) (sent c) (in_buf c) (sock c)
         (unregs c).
Definition move_sent (n : nat) (c : Conn) : Conn :=
  mkConn (connected c) (in_map c) (skipn n (fifo c)) (sent c ++ firstn n (fifo c))
         (in_buf c) (sock c) (unregs c).
Definition set_in_buf (b : bytes) (c : Conn) : Conn :=
  mkConn (connected c) (in_map c) (fifo c) (sent c) b (sock c) (unregs c).

(** ** [NameServer] *)

(** [NameServer.unregister] *)
Definition unregister : M unit :=
  fun s => if count s <=? 0 then (inr ValueError, s)
           else (inl tt, set_count (count s - 1) s).

(** What [self.accept()] returns: [None] ([AccNone]), or a pair whose
    socket is still connected ([AccPair true]) or already reset by the peer,
    so that [getpeername] fails with [ENOTCONN] in [dispatcher.__init__]. *)
Inductive accept_res := AccNone | AccPair (peer_ok : bool).

(** [ConnectionHandler(sock, self)]: [async_chat.__init__] with empty
    buffers, the channel added to the socket map. *)
Definition new_handler (k : nat) (peer_ok : bool) : Conn :=
  mkConn peer_ok true [] [] [] k 0.

Definition accept_sock : M nat :=
  fun s => (inl (accepted s),
            mkSys (count s) (queue s) (conns s) (S (accepted s)) (closed s)).

Definition add_handler (c : Conn) : M unit :=
  fun s => (inl tt, mkSys (count s) (queue s) (conns s ++ [c])
                          (accepted s) (closed s)).

Definition get_count : M Z := fun s => (inl (count s), s).

(** [NameServer.handle_accept] *)
Definition handle_accept (a : accept_res) : M unit :=
  match a with
  | AccNone => ret tt
  | AccPair peer_ok =>
      k <- accept_sock ;;
      n <- get_count ;;
      if n <? MAXCONN then
        (fun s => (inl tt, set_count (count s + 1) s)) ;;
        add_handler (new_handler k peer_ok)
      else ret tt
  end.

(** ** The inherited transport: [asyncore.dispatcher] / [asynchat.async_chat] *)

(** [dispatcher.close]: flags down, channel removed from the map, socket
    closed. *)
Definition close (i : nat) : M unit :=
  c <- get_conn i ;;
  modify_conn i mark_closed ;;
  note_closed (sock c).

(** [ConnectionHandler.handle_close] *)
Definition handle_close (i : nat) : M unit :=
  modify_conn i incr_unregs ;;
  unregister ;;
  close i.

(** [dispatcher.handle_error]: log, then [self.handle_close()]. *)
Definition handle_error (i : nat) : M unit := handle_close i.

(** What one [socket.send] does: take [k] bytes ([0] on [EWOULDBLOCK]),
    fail with a disconnect errno, or fail with another [OSError]. *)
Inductive send_res := SendOk (k : nat) | SendDisconnected | SendFail.

(** [dispatcher.send] *)
Definition send (i : nat) (o : send_res) : M nat :=
  match o with
  | SendOk k => ret k
  | SendDisconnected => handle_close i ;; ret 0%nat
  | SendFail => raise OSError
  end.

(** [async_chat.initiate_send]: one send attempt while there is output and
    the channel is connected; an [OSError] goes to [handle_error]. *)
Definition initiate_send (i : nat) (o : send_res) : M unit :=
  c <- get_conn i ;;
  if negb (is_nil (fifo c)) && connected c then
    r <- catch (n <- send i o ;; ret (Some n))
               (fun e => match e with
                         | OSError => handle_error i ;; ret None
                         | e => raise e
                         end) ;;
    match r with
    | Some n => if (n =? 0)%nat then ret tt else modify_conn i (move_sent n)
    | None => ret tt
    end
  else ret tt.

(** [async_chat.push]: append to [producer_fifo] (its split into
    [ac_out_buffer_size] chunks leaves the byte sequence unchanged), then
    [initiate_send]. *)
Definition push (i : nat) (data : bytes) (o : send_res) : M unit :=
  modify_conn i (append_fifo data) ;;
  initiate_send i o.

(** [async_chat.writable]: [self.producer_fifo or (not self.connected)] *)
Definition ac_writable (c : Conn) : bool :=
  negb (is_nil (fifo c)) || negb (connected c).

(** [ConnectionHandler.writable] *)
Definition writable (q : list pystr) (c : Conn) : bool :=
  ac_writable c || negb (q_empty q).

(** [self.__server._queue.get(0)] *)
Definition queue_get0 : M pystr :=
  fun s => match q_get_nowait (queue s) with
           | None => (inr QueueEmpty, s)
           | Some (x, q') => (inl x, set_queue q' s)
           end.

(** [ConnectionHandler.handle_write]; [o1] is the outcome of the send
    attempted by [push], [o2] that of the send of the parent's
    [handle_write] ([async_chat.handle_write] is [self.initiate_send()]). *)
Definition handle_write (i : nat) (o1 o2 : send_res) : M unit :=
  r <- catch (x <- queue_get0 ;; ret (Some x))
             (fun e => match e with
                       | QueueEmpty => ret None
                       | e => raise e
                       end) ;;
  (match r with
   | None => ret tt
   | Some item =>
       match frame item with
       | None => raise UnicodeEncodeError
       | Some b => push i b o1
       end
   end) ;;
  initiate_send i o2.

(** What one [socket.recv] does: return bytes ([b''] at end of stream),
    would block, fail with a disconnect errno, or fail otherwise. *)
Inductive recv_res :=
| RecvBytes (d : bytes)
| RecvWouldBlock
| RecvDisconnected
| RecvFail.

Inductive recv_exn := RBlocking | ROther (e : exn).

(** [dispatcher.recv] *)
Definition recv (i : nat) (r : recv_res) : M (bytes + recv_exn) :=
  match r with
  | RecvBytes d => if is_nil d then handle_close i ;; ret (inl [])
                   else ret (inl d)
  | RecvWouldBlock => ret (inr RBlocking)
  | RecvDisconnected => handle_close i ;; ret (inl [])
  | RecvFail => ret (inr (ROther OSError))
  end.

(** [ConnectionHandler.collect_incoming_data] *)
Definition collect_incoming_data (data : bytes) : M unit := ret tt.

(** [ConnectionHandler.found_terminator] *)
Definition found_terminator : M unit := ret tt.

(** The [while self.ac_in_buffer:] loop of [async_chat.handle_read] for a
    bytes terminator.  Each round either leaves the loop or shortens the
    buffer, so [S (length buffer)] rounds are enough. *)
Fixpoint scan_loop (fuel : nat) (i : nat) : M unit :=
  match fuel with
  | O => ret tt
  | S f =>
      c <- get_conn i ;;
      let buf := in_buf c in
      let term := handler_terminator in
      if is_nil buf then ret tt else
      match find_sub buf term with
      | Some idx =>
          (if (0 <? idx)%nat then collect_incoming_data (firstn idx buf)
           else ret tt) ;;
          modify_conn i (set_in_buf (skipn (idx + length term) buf)) ;;
          found_terminator ;;
          scan_loop f i
      | None =>
          let k := find_prefix_at_end buf term in
          if (k =? 0)%nat then
            collect_incoming_data buf ;;
            modify_conn i (set_in_buf []) ;;
            scan_loop f i
          else if (k =? length buf)%nat then ret tt
          else
            collect_incoming_data (firstn (length buf - k) buf) ;;
            modify_conn i (set_in_buf (skipn (length buf - k) buf))
      end
  end.

(** The rest of [async_chat.handle_read] once [recv] returned: the data
    joins [ac_in_buffer], which is then scanned. *)
Definition absorb (i : nat) (data : bytes) : M unit :=
  c <- get_conn i ;;
  modify_conn i (set_in_buf (in_buf c ++ data)) ;;
  scan_loop (S (length (in_buf c ++ data))) i.

(** [async_chat.handle_read]: [BlockingIOError] returns, another [OSError]
    goes to [handle_error]. *)
Definition handle_read (i : nat) (r : recv_res) : M unit :=
  d <- recv i r ;;
  match d with
  | inr RBlocking => ret tt
  | inr (ROther _) => handle_error i
  | inl data => absorb i data
  end.

(** ** The select loop ([asyncore.loop] with [use_poll=False])

    An event reaches a handler only while it is in the socket map, a write
    event only while [writable()] holds.  [asyncore.read]/[asyncore.write]
    call [handle_error] on any exception; an exception out of
    [handle_error] leaves the loop and ends the relay ([None]). *)

Inductive event :=
| EvAccept (a : accept_res)
| EvRead (i : nat) (r : recv_res)
| EvWrite (i : nat) (o1 o2 : send_res)
| EvPut (x : pystr).

Definition dispatch (i : nat) (m : M unit) (s : Sys) : option Sys :=
  match m s with
  | (inl _, s') => Some s'
  | (inr _, s') =>
      match handle_error i s' with
      | (inl _, s'') => Some s''
      | (inr _, _) => None
      end
  end.

(** [EvPut x] is the producer's [mpqueue.put(x)]: while the queue is full
    the producer waits and the relay state is unchanged. *)
Definition step (e : event) (s : Sys) : option Sys :=
  match e with
  | EvAccept a =>
      match handle_accept a s with
      | (inl _, s') => Some s'
      | (inr _, _) => None
      end
  | EvRead i r =>
      match nth_error (conns s) i with
      | Some c => if in_map c then dispatch i (handle_read i r) s else Some s
      | None => Some s
      end
  | EvWrite i o1 o2 =>
      match nth_error (conns s) i with
      | Some c =>
          if in_map c && writable (queue s) c
          then dispatch i (handle_write i o1 o2) s else Some s
      | None => Some s
      end
  | EvPut x =>
      match q_put x (queue s) with
      | Some q => Some (set_queue q s)
      | None => Some s
      end
  end.

Fixpoint run (evs : list event) (s : Sys) : option Sys :=
  match evs with
  | [] => Some s
  | e :: es =>
      match step e s with
      | Some s' => run es s'
      | None => None
      end
  end.

(** ** [NameServer] operations on their own

    A sequence of [handle_accept] events and direct [unregister()] calls;
    a call that raises leaves its state for the caller to continue from. *)

Inductive srv_op := SAccept (a : accept_res) | SUnregister.

Definition srv_exec (op : srv_op) : M unit :=
  match op with
  | SAccept a => handle_accept a
  | SUnregister => unregister
  end.

Definition srv_run (ops : list srv_op) (s : Sys) : Sys :=
  fold_left (fun s op => snd (srv_exec op s)) ops s.

(** ** The queue on its own: producer [put]s and non-blocking [get(0)]s

    A [put] on a full queue blocks, so the sequence stops there ([None]);
    each [get(0)] yields an item or [queue.Empty] ([None] in the output). *)

Inductive qop := QPut (x : pystr) | QGet.

Fixpoint q_run (ops : list qop) (q : list pystr)
  : option (list (option pystr) * list pystr) :=
  match ops with
  | [] => Some ([], q)
  | QPut x :: ops' =>
      match q_put x q with
      | Some q' => q_run ops' q'
      | None => None
      end
  | QGet :: ops' =>
      match q_get_nowait q with
      | Some (x, q') =>
          match q_run ops' q' with
          | Some (outs, qf) => Some (Some x :: outs, qf)
          | None => None
          end
      | None =>
          match q_run ops' q with
          | Some (outs, qf) => Some (None :: outs, qf)
          | None => None
          end
      end
  end.

Fixpoint pushed (ops : list qop) : list pystr :=
  match ops with
  | [] => []
  | QPut x :: ops' => x :: pushed ops'
  | QGet :: ops' => pushed ops'
  end.

Fixpoint somes {A} (l : list (option A)) : list A :=
  match l with
  | [] => []
  | Some x :: l' => x :: somes l'
  | None :: l' => somes l'
  end.

(** ** [AsyncoreProcess]

    [multiprocessing.Process.is_alive()] is false before [start()], true
    while the child runs and false again once it has exited. *)

Section Process.

Variable D : Type.

Inductive pstate := PNew | PRunning | PExited.

(** [inits] is [self.__inits], the [(cls, args, kwargs)] triples. *)
Record Proc := mkProc { pst : pstate; inits : list D }.

Definition is_alive (p : Proc) : bool :=
  match pst p with PRunning => true | _ => false end.

(** [AsyncoreProcess.add] *)
Definition add (p : Proc) (d : D) : (unit + exn) * Proc :=
  if is_alive p then (inr RuntimeError, p)
  else (inl tt, mkProc (pst p) (inits p ++ [d])).

Definition new_proc : Proc := mkProc PNew [].

(** [Process.start()] (a second [start] fails an assertion). *)
Definition start (p : Proc) : option Proc :=
  match pst p with
  | PNew => Some (mkProc PRunning (inits p))
  | _ => None
  end.

(** The child terminates, e.g. when [asyncore.loop] finds an empty map. *)
Definition child_exit (p : Proc) : Proc :=
  match pst p with
  | PRunning => mkProc PExited (inits p)
  | _ => p
  end.

Inductive pact := Instantiate (d : D) | EnterLoop.

(** [AsyncoreProcess.run]: each class called on its arguments in order, then
    [asyncore.loop(timeout=1)]. *)
Definition proc_run (p : Proc) : list pact :=
  map Instantiate (inits p) ++ [EnterLoop].

End Process.

Arguments mkProc {D}.
Arguments pst {D}.
Arguments inits {D}.
Arguments is_alive {D}.
Arguments add {D}.
Arguments new_proc {D}.
Arguments start {D}.
Arguments child_exit {D}.
Arguments Instantiate {D}.
Arguments EnterLoop {D}.
Arguments proc_run {D}.

(** ** [namestream.py]: [LanguageDetector]

    Python's [str.lower] (full Unicode case mapping) is left abstract: the
    definitions take it as an argument [lower], and the theorems hold for
    every such function.  The threshold is a rational; for the value the
    code uses, [0.5], the float product [len(words) * 0.5] is exact. *)

(** The whitespace of [str.split()] with no argument
    ([Py_UNICODE_ISSPACE]). *)
Definition is_space (c : Z) : bool :=
  ((9 <=? c) && (c <=? 13)) || ((28 <=? c) && (c <=? 32)) ||
  (c =? 133) || (c =? 160) || (c =? 5760) ||
  ((8192 <=? c) && (c <=? 8202)) || (c =? 8232) || (c =? 8233) ||
  (c =? 8239) || (c =? 8287) || (c =? 12288).

(** [str.split()]: the maximal runs of non-whitespace, in order; [cur] is
    the word being read, reversed. *)
Fixpoint split_ws (cur : pystr) (s : pystr) : list pystr :=
  match s with
  | [] => if is_nil cur then [] else [rev cur]
  | c :: s' =>
      if is_space c then
        if is_nil cur then split_ws [] s' else rev cur :: split_ws [] s'
      else split_ws (c :: cur) s'
  end.

Definition str_split (s : pystr) : list pystr := split_ws [] s.

Definition str_eq_dec : forall a b : pystr, {a = b} + {a <> b} :=
  list_eq_dec Z.eq_dec.

(** [w in ws] *)
Definition str_in (w : pystr) (ws : list pystr) : bool :=
  if in_dec str_eq_dec w ws then true else false.

(** [set(...)] of strings, as a list without duplicates. *)
Definition py_set (l : list pystr) : list pystr := nodup str_eq_dec l.

(** [a - b] on sets. *)
Definition set_diff (a b : list pystr) : list pystr :=
  filter (fun w => negb (str_in w b)) a.

(** [self.__threshold] and [self.__vocabulary] *)
Record LanguageDetector := mkLD {
  threshold : Q;
  vocabulary : list pystr
}.

(** [LanguageDetector.__init__] *)
Definition ld_init (lower : pystr -> pystr) (words : list pystr)
           (t : Q) : LanguageDetector :=
  mkLD t (py_set (map lower words)).

(** [LanguageDetector.__eq__] *)
Definition ld_eq (lower : pystr -> pystr) (ld : LanguageDetector)
           (text : pystr) : bool :=
  let words := py_set (map lower (str_split text)) in
  let unusual := set_diff words (vocabulary ld) in
  Qle_bool (inject_Z (Z.of_nat (length unusual)))
           (inject_Z (Z.of_nat (length words)) * threshold ld).

(** ** [namestream.py]: [NamedEntityStreamer.on_success]

    The [nltk] pipeline [ne_chunk(pos_tag(word_tokenize(text)))] is left
    abstract ([ne_pipeline]), as is the word list [nltk.corpus.words]
    ([nltk_words]).  Its result is the list of top-level children of the
    chunk tree: [(word, tag)] leaves, or named-entity subtrees, whose
    children are [(word, tag)] leaves. *)

Inductive chunk :=
| Leaf (word tag : pystr)
| Tree (label : pystr) (leaves : list (pystr * pystr)).

(** The values of the decoded status: strings, or anything else. *)
Inductive jval := JStr (s : pystr) | JOther.

(** [d[k]] on a dict given by its items. *)
Fixpoint dict_get (k : pystr) (d : list (pystr * jval)) : option jval :=
  match d with
  | [] => None
  | (k', v) :: d' => if str_eq_dec k k' then Some v else dict_get k d'
  end.

(** ['text'] *)
Definition key_text : pystr := [116; 101; 120; 116].
(** ['PERSON'] *)
Definition label_person : pystr := [80; 69; 82; 83; 79; 78].

(** [sep.join(l)] *)
Fixpoint join (sep : pystr) (l : list pystr) : pystr :=
  match l with
  | [] => []
  | [x] => x
  | x :: l' => x ++ sep ++ join sep l'
  end.

Definition is_tree (c : chunk) : bool :=
  match c with Tree _ _ => true | Leaf _ _ => false end.

(** [entity.label() == 'PERSON'] on the subtrees kept by [is_tree]. *)
Definition is_person (c : chunk) : bool :=
  match c with
  | Tree l _ => if str_eq_dec l label_person then true else false
  | Leaf _ _ => false
  end.

(** [' '.join(a for a, b in p.leaves())] *)
Definition entity_name (c : chunk) : pystr :=
  match c with
  | Tree _ lv => join [32] (map fst lv)
  | Leaf w _ => w
  end.

(** What [on_success] does: the names passed to [self.__callback], in
    order, or the [AttributeError] of [text.split()] when ['text'] is not a
    string. *)
Inductive os_res := OSCalls (names : list pystr) | OSAttributeError.

(** [NamedEntityStreamer.english] *)
Definition english (lower : pystr -> pystr) (nltk_words : list pystr)
  : LanguageDetector :=
  ld_init lower nltk_words (1 # 2).

(** [NamedEntityStreamer.on_success] *)
Definition on_success (lower : pystr -> pystr) (nltk_words : list pystr)
           (ne_pipeline : pystr -> list chunk)
           (data : list (pystr * jval)) : os_res :=
  match dict_get key_text data with
  | None => OSCalls []
  | Some JOther => OSAttributeError
  | Some (JStr text) =>
      if ld_eq lower (english lower nltk_words) text then
        let chunks := ne_pipeline text in
        let entities := filter is_tree chunks in
        let people := filter is_person entities in
        OSCalls (map entity_name people)
      else OSCalls []
  end.

(** ** [configparser]: the credentials read by the [__main__] blocks

    [twconf['app']] and [appconf[key]] for [key in TWKEYS], after the
    CPython 3 [configparser] sources: a [SectionProxy] lookup checks
    [has_option] (the section, then [DEFAULT]) and then calls [get], which
    runs [BasicInterpolation.before_get] on the raw value.  The parser is
    taken after [read]: option names are already passed through
    [optionxform] ([str.lower], the abstract [lower]). *)

Inductive cfg_exn :=
| CfgKeyError
| InterpolationSyntaxError
| InterpolationMissingOptionError
| InterpolationDepthError.

(** [_defaults] and [_sections] of a [ConfigParser]. *)
Record ConfigParser := mkCP {
  cp_defaults : list (pystr * pystr);
  cp_sections : list (pystr * list (pystr * pystr))
}.

Fixpoint assoc {V} (k : pystr) (l : list (pystr * V)) : option V :=
  match l with
  | [] => None
  | (k', v) :: l' => if str_eq_dec k k' then Some v else assoc k l'
  end.

(** The [ChainMap(vars, section, defaults)] built by [_unify_values]. *)
Definition chain_get (k : pystr) (sec defs : list (pystr * pystr))
  : option pystr :=
  match assoc k sec with
  | Some v => Some v
  | None => assoc k defs
  end.

Definition MAX_INTERPOLATION_DEPTH : nat := 10.

(** [str.find] of one character. *)
Fixpoint find_char (c : Z) (s : pystr) : option nat :=
  match s with
  | [] => None
  | x :: s' => if x =? c then Some 0%nat else option_map S (find_char c s')
  end.

Definition pct : Z := 37.

(** [BasicInterpolation._KEYCRE.match(rest)] for [r"%\(([^)]+)\)s"]: the
    name and what follows the match. *)
Definition keycre (rest : pystr) : option (pystr * pystr) :=
  match rest with
  | a :: b :: r =>
      if (a =? pct) && (b =? 40) then
        match find_char 41 r with
        | Some k =>
            if (k =? 0)%nat then None
            else match skipn (S k) r with
                 | c :: after => if c =? 115 then Some (firstn k r, after)
                                 else None
                 | [] => None
                 end
        | None => None
        end
      else None
  | _ => None
  end.

Definition app_res (x : pystr) (r : pystr + cfg_exn) : pystr + cfg_exn :=
  match r with
  | inl y => inl (x ++ y)
  | inr e => inr e
  end.

(** The [while rest:] loop of [BasicInterpolation._interpolate_some]; [rec]
    is the nested call one level deeper, [fuel] bounds the rounds (each
    one shortens [rest]).  The result is what the loop appends to
    [accum]. *)
Fixpoint interp_loop (lower : pystr -> pystr) (sec defs : list (pystr * pystr))
         (rec : pystr -> pystr + cfg_exn) (fuel : nat) (rest : pystr)
  : pystr + cfg_exn :=
  match fuel with
  | O => inl []
  | S f =>
      if is_nil rest then inl [] else
      match find_char pct rest with
      | None => inl rest
      | Some p =>
          let pre := firstn p rest in
          let rest := skipn p rest in
          let c := firstn 1 (skipn 1 rest) in
          if str_eq_dec c [pct] then
            app_res (pre ++ [pct]) (interp_loop lower sec defs rec f (skipn 2 rest))
          else if str_eq_dec c [40] then
            match keycre rest with
            | None => inr InterpolationSyntaxError
            | Some (name, after) =>
                match chain_get (lower name) sec defs with
                | None => inr InterpolationMissingOptionError
                | Some v =>
                    if existsb (Z.eqb pct) v then
                      match rec v with
                      | inl x => app_res (pre ++ x)
                                   (interp_loop lower sec defs rec f after)
                      | inr e => inr e
                      end
                    else app_res (pre ++ v) (interp_loop lower sec defs rec f after)
                end
            end
          else inr InterpolationSyntaxError
      end
  end.

(** [BasicInterpolation._interpolate_some] at [depth]; [n] bounds the
    nesting and never runs out before the depth check fires. *)
Fixpoint interpolate_some (lower : pystr -> pystr)
         (sec defs : list (pystr * pystr)) (n depth : nat) (rest : pystr)
  : pystr + cfg_exn :=
  if (MAX_INTERPOLATION_DEPTH <? depth)%nat then inr InterpolationDepthError
  else match n with
       | O => inr InterpolationDepthError
       | S n' =>
           interp_loop lower sec defs (interpolate_some lower sec defs n' (S depth))
                       (S (length rest)) rest
       end.

(** [BasicInterpolation.before_get] *)
Definition before_get (lower : pystr -> pystr) (sec defs : list (pystr * pystr))
           (value : pystr) : pystr + cfg_exn :=
  interpolate_some lower sec defs (S MAX_INTERPOLATION_DEPTH) 1 value.

(** [SectionProxy.__getitem__]: [has_option], then [get]. *)
Definition proxy_get (lower : pystr -> pystr) (cp : ConfigParser)
           (sec : list (pystr * pystr)) (key : pystr) : pystr + cfg_exn :=
  match chain_get (lower key) sec (cp_defaults cp) with
  | None => inr CfgKeyError
  | Some v => before_get lower sec (cp_defaults cp) v
  end.

(** ['app'] *)
Definition sect_app : pystr := [97; 112; 112].

(** [namestream.TWKEYS] *)
Definition TWKEYS : list pystr :=
  [ [99; 111; 110; 115; 117; 109; 101; 114; 95; 107; 101; 121];
    [99; 111; 110; 115; 117; 109; 101; 114; 95; 115; 101; 99; 114; 101; 116];
    [97; 99; 99; 101; 115; 115; 95; 116; 111; 107; 101; 110];
    [97; 99; 99; 101; 115; 115; 95; 116; 111; 107; 101; 110; 95; 115; 101;
     99; 114; 101; 116] ].

(** [tuple(appconf[key] for key in keys)]: the first exception wins. *)
Fixpoint get_keys (lower : pystr -> pystr) (cp : ConfigParser)
         (sec : list (pystr * pystr)) (keys : list pystr)
  : list pystr + cfg_exn :=
  match keys with
  | [] => inl []
  | k :: ks =>
      match proxy_get lower cp sec k with
      | inr e => inr e
      | inl v =>
          match get_keys lower cp sec ks with
          | inl vs => inl (v :: vs)
          | inr e => inr e
          end
      end
  end.

(** [appconf = twconf['app']; twitter_cred = tuple(...)] *)
Definition read_creds (lower : pystr -> pystr) (cp : ConfigParser)
  : list pystr + cfg_exn :=
  match assoc sect_app (cp_sections cp) with
  | None => inr CfgKeyError
  | Some sec => get_keys lower cp sec TWKEYS
  end.

(** What the [__main__] block of [namestream.py] does with the parsed
    configuration: stream with the credentials, log that the configuration
    is not valid ([except KeyError]), or stop on an exception the [except]
    does not catch. *)
Inductive main_res :=
| StreamWith (creds : list pystr)
| LogInvalid
| Uncaught (e : cfg_exn).

Definition namestream_main (lower : pystr -> pystr) (cp : ConfigParser)
  : main_res :=
  match read_creds lower cp with
  | inl creds => StreamWith creds
  | inr CfgKeyError => LogInvalid
  | inr e => Uncaught e
  end.


(** A text written for [BasicInterpolation]: every ['%'] doubled. *)
Definition config_escape (v : pystr) : pystr :=
  flat_map (fun c => if c =? pct then [pct; pct] else [c]) v.

(** ** Observations used by the theorems *)

(** Open handlers: those still in the socket map. *)
Fixpoint open_count (l : list Conn) : nat :=
  match l with
  | [] => O
  | c :: l' => (if in_map c then 1 else 0) + open_count l'
  end%nat.

(** Invariant of the relay: the count is the number of open handlers, a
    closed handler called [unregister] once and an open one never, and a
    closed handler is not connected. *)
Definition conn_ok (c : Conn) : Prop :=
  unregs c = (if in_map c then 0 else 1)%nat /\
  (in_map c = false -> connected c = false).

Definition Inv (s : Sys) : Prop :=
  count s = Z.of_nat (open_count (conns s)) /\ Forall conn_ok (conns s).

(** The state without the input buffers [ac_in_buffer]. *)
Definition strip_conn (c : Conn) : Conn :=
  mkConn (connected c) (in_map c) (fifo c) (sent c) [] (sock c) (unregs c).

Definition strip (s : Sys) : Sys :=
  mkSys (count s) (queue s) (map strip_conn (conns s)) (accepted s) (closed s).

(** What the claims observe: the count, the shared queue and the bytes
    each consumer's socket has taken. *)
Definition observe (s : Sys) : Z * list pystr * list bytes :=
  (count s, queue s, map sent (conns s)).

(** Two events that differ at most in the (non-empty) data a consumer
    sent. *)
Definition same_but_data (e e' : event) : Prop :=
  match e, e' with
  | EvRead i (RecvBytes d), EvRead i' (RecvBytes d') =>
      i = i' /\ d <> [] /\ d' <> []
  | _, _ => e = e'
  end.

(** The bytes handed to the transport so far, per handler. *)
Definition streams (s : Sys) : list bytes :=
  map (fun c => sent c ++ fifo c) (conns s).

(** Actions that keep the queue and every consumer's byte stream. *)
Definition keeps {A} (m : M A) : Prop :=
  forall s, queue (snd (m s)) = queue s /\ streams (snd (m s)) = streams s.

(** Updates that leave the flags and the ghost counter alone. *)
Definition neutral (f : Conn -> Conn) : Prop :=
  forall c, in_map (f c) = in_map c /\ unregs (f c) = unregs c /\
            connected (f c) = connected c.

(** Two results agree up to the consumers' input buffers: same
    exception, or results related by [RA], in states equal once stripped. *)
Definition rel_res {A} (RA : A -> A -> Prop) (r r' : (A + exn) * Sys) : Prop :=
  strip (snd r) = strip (snd r') /\
  match fst r, fst r' with
  | inl a, inl a' => RA a a'
  | inr e, inr e' => e = e'
  | _, _ => False
  end.

(** Two actions run from states equal up to input buffers give such
    results. *)
Definition resp {A} (RA : A -> A -> Prop) (m m' : M A) : Prop :=
  forall s s', strip s = strip s' -> rel_res RA (m s) (m' s').

(** Handlers equal up to their input buffer. *)
Definition same_conn (c c' : Conn) : Prop := strip_conn c = strip_conn c'.

(** Two handler updates that map such handlers to such handlers. *)
Definition conn_resp (f f' : Conn -> Conn) : Prop :=
  forall c c', same_conn c c' -> same_conn (f c) (f' c').

(** Both loops end the relay, or both go on in states equal up to input
    buffers. *)
Definition opt_rel (o o' : option Sys) : Prop :=
  match o, o' with
  | Some t, Some t' => strip t = strip t'
  | None, None => True
  | _, _ => False
  end.

(** Names carried by the relay: the ['\n'] bytes handed to the consumers'
    sockets or still pending in their output buffers. *)
Definition stream_newlines (s : Sys) : nat :=
  list_sum (map (fun b => count_occ Z.eq_dec b newline) (streams s)).

(** A queue item that frames to exactly one line: no ['\n'] of its own and
    no lone surrogate. *)
Definition clean_item (x : pystr) : Prop :=
  ~ In newline x /\ exists b, frame x = Some b.

(** A proper prefix of the terminator [b"\r\n\r\n"]: what
    [find_prefix_at_end] lets [ac_in_buffer] keep. *)
Definition term_prefix (b : bytes) : Prop :=
  exists k, (k < length handler_terminator)%nat /\ b = firstn k handler_terminator.

(** Every handler's [ac_in_buffer] is such a prefix. *)
Definition inbufs_ok (s : Sys) : Prop :=
  Forall term_prefix (map in_buf (conns s)).

(** * Theorems *)

(** ** Connection count of [NameServer] *)

Lemma srv_exec_bounds (op : srv_op) (s : Sys) :
  0 <= count s <= MAXCONN -> 0 <= count (snd (srv_exec op s)) <= MAXCONN.
Proof.
  unfold MAXCONN; intros H; destruct op as [[|b]|]; simpl.
  - exact H.
  - unfold bind, accept_sock, get_count, MAXCONN; simpl.
    destruct (count s <? 10) eqn:E; simpl;
      [apply Z.ltb_lt in E|apply Z.ltb_ge in E]; lia.
  - unfold unregister; simpl; destruct (count s <=? 0) eqn:E; simpl;
      [|apply Z.leb_gt in E]; lia.
Qed.

Lemma srv_run_bounds (ops : list srv_op) (s : Sys) :
  0 <= count s <= MAXCONN -> 0 <= count (srv_run ops s) <= MAXCONN.
Proof.
  unfold srv_run; revert s; induction ops as [|op ops IH]; intros s H;
    simpl; [exact H|].
  apply IH, srv_exec_bounds, H.
Qed.

(** C1: from a fresh [NameServer], every sequence of accepts and
    unregistrations keeps [0 <= count <= MAXCONN]; after [MAXCONN] accepted
    registrations the next accept creates no handler and leaves the count at
    [MAXCONN], and after one [unregister()] the next accept registers. *)
Theorem count_within_maxconn :
  (forall q ops, 0 <= count (srv_run ops (init_sys q)) <= MAXCONN) /\
  (forall q,
     let s := srv_run (repeat (SAccept (AccPair true)) (Z.to_nat MAXCONN))
                      (init_sys q) in
     count s = MAXCONN /\
     count (snd (handle_accept (AccPair true) s)) = MAXCONN /\
     conns (snd (handle_accept (AccPair true) s)) = conns s /\
     let s' := srv_run [SAccept (AccPair true); SUnregister;
                        SAccept (AccPair true)] s in
     count s' = MAXCONN /\ length (conns s') = S (length (conns s))).
Proof.
  split.
  - intros q ops; apply srv_run_bounds; simpl; unfold MAXCONN; lia.
  - intros q; simpl; repeat split; reflexivity.
Qed.

(** C2: in every state reached from a fresh [NameServer], [unregister()]
    raises exactly when the count is [0], leaving the state unchanged, and
    otherwise lowers the count by exactly one. *)
Theorem unregister_underflow :
  forall q ops,
    let s := srv_run ops (init_sys q) in
    (fst (unregister s) = inr ValueError <-> count s = 0) /\
    (count s = 0 -> snd (unregister s) = s) /\
    (0 < count s -> unregister s = (inl tt, set_count (count s - 1) s)).
Proof.
  intros q ops s.
  assert (H : 0 <= count s <= MAXCONN)
    by (apply srv_run_bounds; simpl; unfold MAXCONN; lia).
  unfold unregister; destruct (count s <=? 0) eqn:E.
  - apply Z.leb_le in E; simpl; repeat split; intros; try reflexivity; lia.
  - apply Z.leb_gt in E; simpl; repeat split; intros; try discriminate;
      try reflexivity; lia.
Qed.

(** ** Accepting at capacity *)

(** C3 (as stated, refuted): at [MAXCONN] connections [handle_accept]
    does not close the socket [accept()] returned: it is only dropped. *)
Lemma accept_at_capacity_not_closed :
  let s := srv_run (repeat (SAccept (AccPair true)) 10) (init_sys []) in
  count s = MAXCONN /\
  ~ In (accepted s) (closed (snd (handle_accept (AccPair true) s))).
Proof.
  vm_compute; split; [reflexivity|].
  intros H; exact H.
Qed.

(** C3 (amended): an accept at [MAXCONN] connections (or more) creates no
    handler, leaves the count unchanged and closes nothing; the accepted
    socket is merely dropped (only the socket numbering advances). *)
Theorem accept_at_capacity_ignored (s : Sys) (b : bool) :
  MAXCONN <= count s ->
  handle_accept (AccPair b) s =
    (inl tt, mkSys (count s) (queue s) (conns s) (S (accepted s)) (closed s)).
Proof.
  intros H; unfold handle_accept, bind, accept_sock, get_count; simpl.
  destruct (count s <? MAXCONN) eqn:E; [apply Z.ltb_lt in E; lia|].
  reflexivity.
Qed.

Lemma accept_at_capacity_ignored_witness :
  MAXCONN <= count (mkSys 10 [] [] 10 []) /\
  handle_accept (AccPair true) (mkSys 10 [] [] 10 []) =
    (inl tt, mkSys 10 [] [] 11 []).
Proof.
  split; [unfold MAXCONN; simpl; lia|].
  apply (accept_at_capacity_ignored (mkSys 10 [] [] 10 []) true).
  unfold MAXCONN; simpl; lia.
Defined.

(** ** Writability *)

(** C6: [ConnectionHandler.writable()] holds exactly when the parent
    [async_chat.writable()] holds or the shared queue is not empty. *)
Theorem writable_iff (q : list pystr) (c : Conn) :
  writable q c = true <-> ac_writable c = true \/ q <> [].
Proof.
  unfold writable, q_empty, is_nil; destruct q as [|x q]; rewrite orb_true_iff;
    simpl; split; intros [H|H]; auto; try discriminate; try congruence.
  right; discriminate.
Qed.

(** ** Wire framing *)

Lemma utf8_encode_app (a b : pystr) :
  utf8_encode (a ++ b) =
    match utf8_encode a, utf8_encode b with
    | Some x, Some y => Some (x ++ y)
    | _, _ => None
    end.
Proof.
  induction a as [|c a IH]; simpl.
  - destruct (utf8_encode b); reflexivity.
  - rewrite IH; destruct (utf8_char c), (utf8_encode a), (utf8_encode b);
      try reflexivity; rewrite app_assoc; reflexivity.
Qed.

(** C4 (as stated, refuted): no fixed terminator of two or more bytes
    follows the UTF-8 text of every message: the empty message goes out as
    the single byte [0x0A]. *)
Lemma frame_not_multibyte_terminated :
  ~ exists T : bytes, (2 <= length T)%nat /\
      forall m b, utf8_encode m = Some b -> frame m = Some (b ++ T).
Proof.
  intros [T [HT H]].
  specialize (H [] [] eq_refl); vm_compute in H.
  injection H as H; apply (f_equal (@length Z)) in H; simpl in H; lia.
Qed.

(** C4 (amended): the bytes pushed for a message are its UTF-8 encoding
    followed by the single byte ['\n'] (none when the text holds a lone
    surrogate), so a message containing ['\n'] goes out exactly as two
    messages would. *)
Theorem frame_newline_terminated (m : pystr) :
  frame m = option_map (fun b => b ++ [newline]) (utf8_encode m) /\
  forall a b,
    frame (a ++ [newline] ++ b) =
      match frame a, frame b with
      | Some x, Some y => Some (x ++ y)
      | _, _ => None
      end.
Proof.
  split.
  - unfold frame; rewrite utf8_encode_app; simpl.
    destruct (utf8_encode m); reflexivity.
  - intros a b; unfold frame.
    rewrite app_assoc, !utf8_encode_app; simpl.
    destruct (utf8_encode a), (utf8_encode b); simpl; try reflexivity.
    rewrite <- app_assoc; reflexivity.
Qed.

(** ** The shared queue *)

Lemma q_run_fifo (ops : list qop) (q0 : list pystr) outs qf :
  (length q0 <= QUEUE_MAXSIZE)%nat ->
  q_run ops q0 = Some (outs, qf) ->
  somes outs ++ qf = q0 ++ pushed ops /\ (length qf <= QUEUE_MAXSIZE)%nat.
Proof.
  revert q0 outs qf; induction ops as [|[x|] ops IH]; intros q0 outs qf Hl H;
    simpl in H.
  - injection H as <- <-; simpl; rewrite app_nil_r; auto.
  - unfold q_put in H; destruct (length q0 <? QUEUE_MAXSIZE)%nat eqn:E;
      [|discriminate].
    apply Nat.ltb_lt in E.
    destruct (IH (q0 ++ [x]) outs qf) as [H1 H2];
      [rewrite length_app; simpl; lia | exact H |].
    simpl; rewrite H1, <- app_assoc; auto.
  - destruct q0 as [|y q0]; simpl in H.
    + destruct (q_run ops []) as [[o f]|] eqn:R; [|discriminate].
      injection H as <- <-; simpl.
      exact (IH [] o f Hl R).
    + destruct (q_run ops q0) as [[o f]|] eqn:R; [|discriminate].
      injection H as <- <-; simpl.
      simpl in Hl; destruct (IH q0 o f) as [H1 H2]; [lia|exact R|].
      rewrite H1; auto.
Qed.

Lemma q_run_prefix (ops1 ops2 : list qop) q0 r :
  q_run (ops1 ++ ops2) q0 = Some r ->
  exists o1 q1, q_run ops1 q0 = Some (o1, q1).
Proof.
  revert q0 r; induction ops1 as [|[x|] ops1 IH]; intros q0 r H; simpl in *.
  - eauto.
  - destruct (q_put x q0) as [q'|]; [|discriminate]; eauto.
  - destruct (q_get_nowait q0) as [[y q']|].
    + destruct (q_run (ops1 ++ ops2) q') eqn:R; [|discriminate].
      destruct (IH q' _ R) as [o1 [q1 R1]]; rewrite R1; eauto.
    + destruct (q_run (ops1 ++ ops2) q0) eqn:R; [|discriminate].
      destruct (IH q0 _ R) as [o1 [q1 R1]]; rewrite R1; eauto.
Qed.

(** C5: for every sequence of [put]s and [get(0)]s on the empty queue in
    which no [put] finds the queue full, the items the [get]s return,
    followed by what the queue still holds, are exactly the pushed items in
    push order, and after every prefix of the sequence the queue holds at
    most 100 items. *)
Theorem queue_fifo_bounded (ops : list qop) outs qf :
  q_run ops [] = Some (outs, qf) ->
  somes outs ++ qf = pushed ops /\
  forall ops1 ops2, ops = ops1 ++ ops2 ->
    exists o1 q1, q_run ops1 [] = Some (o1, q1) /\
                  (length q1 <= QUEUE_MAXSIZE)%nat.
Proof.
  intros H; split.
  - exact (proj1 (q_run_fifo ops [] outs qf (Nat.le_0_l _) H)).
  - intros ops1 ops2 ->.
    destruct (q_run_prefix ops1 ops2 [] _ H) as [o1 [q1 R]].
    exists o1, q1; split; [exact R|].
    exact (proj2 (q_run_fifo ops1 [] o1 q1 (Nat.le_0_l _) R)).
Qed.

Lemma queue_fifo_bounded_witness :
  let ops := [QPut [65]; QPut [66]; QGet; QPut [67]; QGet; QGet; QGet] in
  q_run ops [] = Some ([Some [65]; Some [66]; Some [67]; None], []) /\
  somes [Some [65]; Some [66]; Some [67]; None] ++ [] = pushed ops.
Proof.
  intros ops.
  assert (R : q_run ops [] = Some ([Some [65]; Some [66]; Some [67]; None], []))
    by reflexivity.
  split; [exact R|].
  exact (proj1 (queue_fifo_bounded ops _ _ R)).
Defined.

(** ** [AsyncoreProcess.add] *)

(** C9 (code defect): [add] is refused while the child runs and appends
    before [start()]; [run] instantiates the added classes in order before
    the loop; but once the started child has exited, [is_alive()] is false
    again and [add] appends without raising. *)
Theorem add_process_lifecycle (D : Type) (d e : D) :
  add (mkProc PNew [d]) e = (inl tt, mkProc PNew [d; e]) /\
  proc_run (mkProc PRunning [d; e]) = [Instantiate d; Instantiate e; EnterLoop] /\
  add (mkProc PRunning [d]) e = (inr RuntimeError, mkProc PRunning [d]) /\
  match start (snd (add new_proc d)) with
  | Some p => add (child_exit p) e = (inl tt, mkProc PExited [d; e])
  | None => False
  end.
Proof. repeat split. Qed.

(** ** Updating one handler *)

Lemma nth_error_upd {A} (i j : nat) (f : A -> A) (l : list A) :
  nth_error (upd i f l) j =
    if Nat.eqb i j then option_map f (nth_error l j) else nth_error l j.
Proof.
  revert i j; induction l as [|x l IH]; intros [|i] [|j]; simpl;
    try apply IH; try (destruct (Nat.eqb _ _)); auto.
Qed.

Lemma length_upd {A} (i : nat) (f : A -> A) (l : list A) :
  length (upd i f l) = length l.
Proof. revert i; induction l; intros [|i]; simpl; auto. Qed.

Lemma map_upd_same {A B} (g : A -> B) (i : nat) (f : A -> A) (l : list A) :
  (forall x, g (f x) = g x) -> map g (upd i f l) = map g l.
Proof.
  intros Hg; revert i; induction l as [|x l IH]; intros [|i]; simpl;
    rewrite ?Hg, ?IH; reflexivity.
Qed.

Lemma upd_upd {A} (i : nat) (f g : A -> A) (l : list A) :
  upd i g (upd i f l) = upd i (fun x => g (f x)) l.
Proof. revert i; induction l; intros [|i]; simpl; f_equal; auto. Qed.

Lemma keeps_ret {A} (a : A) : keeps (ret a).
Proof. intros s; auto. Qed.

Lemma keeps_raise {A} (e : exn) : keeps (@raise A e).
Proof. intros s; auto. Qed.

Lemma keeps_bind {A B} (m : M A) (k : A -> M B) :
  keeps m -> (forall a, keeps (k a)) -> keeps (bind m k).
Proof.
  intros Hm Hk s; unfold bind; specialize (Hm s).
  destruct (m s) as [[a|e] s'] eqn:E; simpl in *; [|exact Hm].
  destruct (Hk a s') as [H1 H2]; destruct Hm as [H3 H4]; split; congruence.
Qed.

Lemma keeps_catch {A} (m : M A) (h : exn -> M A) :
  keeps m -> (forall e, keeps (h e)) -> keeps (catch m h).
Proof.
  intros Hm Hh s; unfold catch; specialize (Hm s).
  destruct (m s) as [[a|e] s'] eqn:E; simpl in *; [exact Hm|].
  destruct (Hh e s') as [H1 H2]; destruct Hm as [H3 H4]; split; congruence.
Qed.

Lemma keeps_get_conn (i : nat) : keeps (get_conn i).
Proof. intros s; unfold get_conn; destruct (nth_error (conns s) i); auto. Qed.

Lemma keeps_modify_conn (i : nat) (f : Conn -> Conn) :
  (forall c, sent (f c) ++ fifo (f c) = sent c ++ fifo c) ->
  keeps (modify_conn i f).
Proof.
  intros Hf s; unfold modify_conn, streams; simpl; split; [reflexivity|].
  apply map_upd_same; exact Hf.
Qed.

Lemma keeps_note_closed (k : nat) : keeps (note_closed k).
Proof. intros s; auto. Qed.

Lemma keeps_unregister : keeps unregister.
Proof.
  intros s; unfold unregister; destruct (count s <=? 0); simpl; auto.
Qed.

Lemma keeps_incr_unregs (i : nat) : keeps (modify_conn i incr_unregs).
Proof. apply keeps_modify_conn; reflexivity. Qed.

Lemma keeps_mark_closed (i : nat) : keeps (modify_conn i mark_closed).
Proof. apply keeps_modify_conn; reflexivity. Qed.

Lemma keeps_move_sent (i n : nat) : keeps (modify_conn i (move_sent n)).
Proof.
  apply keeps_modify_conn; intros c; simpl.
  rewrite <- app_assoc, firstn_skipn; reflexivity.
Qed.

Lemma keeps_set_in_buf (i : nat) (b : bytes) : keeps (modify_conn i (set_in_buf b)).
Proof. apply keeps_modify_conn; reflexivity. Qed.

Create HintDb keeps_db.
#[local] Hint Resolve keeps_ret keeps_raise keeps_get_conn keeps_note_closed
  keeps_unregister keeps_incr_unregs keeps_mark_closed keeps_move_sent
  keeps_set_in_buf : keeps_db.

Ltac keeps_tac :=
  repeat first
    [ apply keeps_bind; intros
    | apply keeps_catch; intros
    | progress (auto with keeps_db)
    | match goal with
      | |- keeps (match ?x with _ => _ end) => destruct x
      | |- keeps (if ?b then _ else _) => destruct b
      end ].

Lemma keeps_handle_close (i : nat) : keeps (handle_close i).
Proof. unfold handle_close, close; keeps_tac. Qed.

Lemma keeps_send (i : nat) (o : send_res) : keeps (send i o).
Proof.
  unfold send; destruct o; keeps_tac; apply keeps_handle_close.
Qed.

Lemma keeps_initiate_send (i : nat) (o : send_res) : keeps (initiate_send i o).
Proof.
  unfold initiate_send; keeps_tac;
    first [apply keeps_send | apply keeps_handle_close].
Qed.

(** ** [ConnectionHandler.handle_write] *)

Lemma handle_write_empty (s : Sys) (i : nat) (o1 o2 : send_res) :
  queue s = [] -> handle_write i o1 o2 s = initiate_send i o2 s.
Proof.
  intros Hq; unfold handle_write, bind, catch, queue_get0, q_get_nowait.
  rewrite Hq; reflexivity.
Qed.

Lemma handle_write_item (s : Sys) (i : nat) (o1 o2 : send_res) x q :
  queue s = x :: q ->
  handle_write i o1 o2 s =
    match frame x with
    | None => (inr UnicodeEncodeError, set_queue q s)
    | Some b =>
        (initiate_send i o1 ;; initiate_send i o2)
          (snd (modify_conn i (append_fifo b) (set_queue q s)))
    end.
Proof.
  intros Hq; unfold handle_write, bind, catch, queue_get0, q_get_nowait.
  rewrite Hq; simpl; destruct (frame x); reflexivity.
Qed.

Lemma keeps_two_sends (i : nat) (o1 o2 : send_res) :
  keeps (initiate_send i o1 ;; initiate_send i o2).
Proof. apply keeps_bind; intros; apply keeps_initiate_send. Qed.

Lemma nth_streams (s : Sys) (j : nat) :
  nth_error (streams s) j =
    option_map (fun c => sent c ++ fifo c) (nth_error (conns s) j).
Proof. unfold streams; apply nth_error_map. Qed.

(** C7 (amended): [handle_write] pops the shared queue exactly once;
    on an empty queue it is exactly the parent's flush
    ([initiate_send]), so [queue.Empty] never leaves it; a popped item
    whose text UTF-8 encodes has [bytes(item + '\n', 'utf-8')] appended to
    this consumer's outgoing byte stream; a popped item with a lone
    surrogate raises [UnicodeEncodeError] after the pop, before any append;
    the other consumers' byte streams are untouched. *)
Theorem handle_write_single_pop (s : Sys) (i : nat) (c : Conn)
    (o1 o2 : send_res) :
  nth_error (conns s) i = Some c ->
  queue (snd (handle_write i o1 o2 s)) = tl (queue s) /\
  (queue s = [] -> handle_write i o1 o2 s = initiate_send i o2 s) /\
  (forall x b, hd_error (queue s) = Some x -> frame x = Some b ->
     nth_error (streams (snd (handle_write i o1 o2 s))) i =
       Some (sent c ++ fifo c ++ b)) /\
  (forall x, hd_error (queue s) = Some x -> frame x = None ->
     handle_write i o1 o2 s =
       (inr UnicodeEncodeError, set_queue (tl (queue s)) s)) /\
  (forall j, j <> i ->
     nth_error (streams (snd (handle_write i o1 o2 s))) j =
       nth_error (streams s) j).
Proof.
  intros Hc; destruct (queue s) as [|x q] eqn:Hq.
  - rewrite (handle_write_empty s i o1 o2 Hq).
    destruct (keeps_initiate_send i o2 s) as [K1 K2].
    rewrite K1, K2, Hq; repeat split; intros; try reflexivity; discriminate.
  - rewrite (handle_write_item s i o1 o2 x q Hq).
    destruct (frame x) as [b|] eqn:Hf.
    + destruct (keeps_two_sends i o1 o2
                  (snd (modify_conn i (append_fifo b) (set_queue q s))))
        as [K1 K2].
      rewrite K1, K2; simpl.
      repeat split; try (intros; discriminate).
      * intros y b' Hy Hb; injection Hy as <-; rewrite Hf in Hb;
          injection Hb as <-.
        rewrite nth_streams; simpl; rewrite nth_error_upd, Nat.eqb_refl, Hc.
        simpl; rewrite app_assoc; reflexivity.
      * intros y Hy Hn; injection Hy as <-; congruence.
      * intros j Hj; rewrite !nth_streams; simpl; rewrite nth_error_upd.
        assert (Hj' : Nat.eqb i j = false) by (apply Nat.eqb_neq; congruence).
        rewrite Hj'; reflexivity.
    + simpl; refine (conj eq_refl (conj _ (conj _ (conj _ _)))).
      * intros H; discriminate H.
      * intros y b' Hy Hb; injection Hy as <-; congruence.
      * intros y Hy Hn; reflexivity.
      * intros j Hj; reflexivity.
Qed.

Lemma handle_write_single_pop_witness :
  let s := mkSys 1 [[104; 105]] [new_handler 0 true] 1 [] in
  nth_error (conns s) 0 = Some (new_handler 0 true) /\
  nth_error (streams (snd (handle_write 0 (SendOk 0) (SendOk 2) s))) 0 =
    Some ([] ++ [] ++ [104; 105; 10]).
Proof.
  intros s; split; [reflexivity|].
  destruct (handle_write_single_pop s 0 (new_handler 0 true)
             (SendOk 0) (SendOk 2) eq_refl) as [_ [_ [H _]]].
  exact (H [104; 105] [104; 105; 10] eq_refl eq_refl).
Defined.

(** C7 (as stated, refuted): an item holding a lone surrogate is popped
    and then raises [UnicodeEncodeError] out of [handle_write]; nothing is
    appended to the send buffer. *)
Lemma handle_write_surrogate_raises :
  let s := mkSys 1 [[55296]] [new_handler 0 true] 1 [] in
  handle_write 0 (SendOk 0) (SendOk 0) s =
    (inr UnicodeEncodeError, mkSys 1 [] [new_handler 0 true] 1 []).
Proof. vm_compute; reflexivity. Qed.

(** ** Teardown of a handler *)

Lemma bind_ok {A B} (m : M A) (k : A -> M B) s a s' :
  m s = (inl a, s') -> bind m k s = k a s'.
Proof. intros H; unfold bind; rewrite H; reflexivity. Qed.

Lemma bind_err {A B} (m : M A) (k : A -> M B) s e s' :
  m s = (inr e, s') -> bind m k s = (inr e, s').
Proof. intros H; unfold bind; rewrite H; reflexivity. Qed.

Lemma catch_ok {A} (m : M A) (h : exn -> M A) s a s' :
  m s = (inl a, s') -> catch m h s = (inl a, s').
Proof. intros H; unfold catch; rewrite H; reflexivity. Qed.

Lemma catch_err {A} (m : M A) (h : exn -> M A) s e s' :
  m s = (inr e, s') -> catch m h s = h e s'.
Proof. intros H; unfold catch; rewrite H; reflexivity. Qed.

Lemma get_conn_ok (s : Sys) (i : nat) (c : Conn) :
  nth_error (conns s) i = Some c -> get_conn i s = (inl c, s).
Proof. intros H; unfold get_conn; rewrite H; reflexivity. Qed.

Lemma Forall_upd {A} (P : A -> Prop) (i : nat) (f : A -> A) (l : list A) :
  Forall P l -> (forall x, nth_error l i = Some x -> P (f x)) ->
  Forall P (upd i f l).
Proof.
  revert i; induction l as [|x l IH]; intros [|i] H Hf; simpl; auto;
    inversion H; subst; constructor; auto.
Qed.

Lemma Forall_nth {A} (P : A -> Prop) (l : list A) (i : nat) (x : A) :
  Forall P l -> nth_error l i = Some x -> P x.
Proof.
  intros H Hx; rewrite Forall_forall in H; apply H.
  eapply nth_error_In; eauto.
Qed.

Lemma open_count_upd (l : list Conn) (i : nat) (f : Conn -> Conn) (c : Conn) :
  nth_error l i = Some c ->
  (open_count (upd i f l) + (if in_map c then 1 else 0) =
   open_count l + (if in_map (f c) then 1 else 0))%nat.
Proof.
  revert i; induction l as [|x l IH]; intros [|i] H; simpl in *;
    try discriminate.
  - injection H as <-; destruct (in_map x), (in_map (f x)); lia.
  - specialize (IH i H); lia.
Qed.

Lemma open_count_pos (l : list Conn) (i : nat) (c : Conn) :
  nth_error l i = Some c -> in_map c = true -> (1 <= open_count l)%nat.
Proof.
  revert i; induction l as [|x l IH]; intros [|i] H Ho; simpl in *;
    try discriminate.
  - injection H as <-; rewrite Ho; lia.
  - specialize (IH i H Ho); lia.
Qed.

Lemma neutral_append_fifo (d : bytes) : neutral (append_fifo d).
Proof. intros c; auto. Qed.

Lemma neutral_move_sent (n : nat) : neutral (move_sent n).
Proof. intros c; auto. Qed.

Lemma neutral_set_in_buf (b : bytes) : neutral (set_in_buf b).
Proof. intros c; auto. Qed.

Lemma inv_modify_neutral (s : Sys) (i : nat) (f : Conn -> Conn) :
  neutral f -> Inv s ->
  modify_conn i f s = (inl tt, snd (modify_conn i f s)) /\
  Inv (snd (modify_conn i f s)) /\
  length (conns (snd (modify_conn i f s))) = length (conns s).
Proof.
  intros Hf [Hc Hall]; unfold modify_conn; simpl.
  split; [reflexivity|]; split; [|apply length_upd].
  split.
  - cbn [count conns]; rewrite Hc; f_equal.
    destruct (nth_error (conns s) i) as [c|] eqn:Hn.
    + pose proof (open_count_upd (conns s) i f c Hn) as E.
      destruct (Hf c) as [E1 _]; rewrite E1 in E; lia.
    + revert i Hn; clear; induction (conns s) as [|x l IH]; intros [|i] Hn;
        simpl in *; try discriminate; auto.
  - apply Forall_upd; [exact Hall|].
    intros c Hn; destruct (Forall_nth _ _ _ _ Hall Hn) as [U C].
    destruct (Hf c) as [E1 [E2 E3]]; unfold conn_ok.
    rewrite E1, E2, E3; auto.
Qed.

Lemma handle_close_open (s : Sys) (i : nat) (c : Conn) :
  Inv s -> nth_error (conns s) i = Some c -> in_map c = true ->
  exists s', handle_close i s = (inl tt, s') /\ Inv s' /\
    nth_error (conns s') i = Some (mark_closed (incr_unregs c)) /\
    length (conns s') = length (conns s).
Proof.
  intros [Hcnt Hall] Hn Ho.
  pose proof (open_count_pos _ _ _ Hn Ho) as Hpos.
  unfold handle_close, close, bind, modify_conn, unregister, get_conn,
    note_closed, set_count; simpl.
  destruct (count s <=? 0) eqn:E; [apply Z.leb_le in E; lia|].
  cbn [conns]; rewrite nth_error_upd, Nat.eqb_refl, Hn; simpl.
  eexists; split; [reflexivity|].
  rewrite upd_upd; split; [split|split].
  - simpl. pose proof (open_count_upd (conns s) i
                         (fun x => mark_closed (incr_unregs x)) c Hn) as Q.
    simpl in Q; rewrite Ho in Q; lia.
  - simpl; apply Forall_upd; [exact Hall|].
    intros x Hx; rewrite Hn in Hx; injection Hx as <-.
    destruct (Forall_nth _ _ _ _ Hall Hn) as [U _]; rewrite Ho in U.
    unfold conn_ok; simpl; rewrite U; auto.
  - simpl; rewrite nth_error_upd, Nat.eqb_refl, Hn; reflexivity.
  - simpl; apply length_upd.
Qed.

Lemma nth_modify (s : Sys) (i : nat) (f : Conn -> Conn) :
  nth_error (conns (snd (modify_conn i f s))) i =
    option_map f (nth_error (conns s) i).
Proof. simpl; rewrite nth_error_upd, Nat.eqb_refl; reflexivity. Qed.

Lemma map_in_map_neutral (s : Sys) (i : nat) (f : Conn -> Conn) :
  neutral f ->
  map in_map (conns (snd (modify_conn i f s))) = map in_map (conns s).
Proof. intros Hf; simpl; apply map_upd_same; intros c; apply Hf. Qed.

Lemma nth_Some (l : list Conn) (i : nat) :
  (i < length l)%nat -> exists c, nth_error l i = Some c.
Proof.
  intros H; destruct (nth_error l i) as [c|] eqn:E; eauto.
  apply nth_error_None in E; lia.
Qed.

Lemma initiate_send_ok (s : Sys) (i : nat) (o : send_res) :
  Inv s -> (i < length (conns s))%nat ->
  exists s', initiate_send i o s = (inl tt, s') /\ Inv s' /\
             length (conns s') = length (conns s).
Proof.
  intros HI Hi; destruct (nth_Some _ _ Hi) as [c Hn].
  cbv [initiate_send bind catch send ret raise get_conn handle_error].
  rewrite Hn.
  destruct (negb (is_nil (fifo c)) && connected c) eqn:Cd; [|eauto].
  assert (Ho : in_map c = true).
  { apply andb_true_iff in Cd; destruct Cd as [_ Cc].
    destruct HI as [_ Hall]; destruct (Forall_nth _ _ _ _ Hall Hn) as [_ Hx].
    destruct (in_map c) eqn:Hm; auto; rewrite (Hx eq_refl) in Cc; discriminate. }
  destruct o as [k| |].
  - destruct (k =? 0)%nat; [eauto|].
    destruct (inv_modify_neutral s i (move_sent k) (neutral_move_sent k) HI)
      as [E [I L]].
    rewrite E; eauto.
  - destruct (handle_close_open s i c HI Hn Ho) as [s1 [E [I [_ L]]]].
    rewrite E; eauto.
  - destruct (handle_close_open s i c HI Hn Ho) as [s1 [E [I [_ L]]]].
    rewrite E; eauto.
Qed.

(** A failing send on a connected handler with pending output tears it
    down. *)
Lemma initiate_send_fail (s : Sys) (i : nat) (c : Conn) (o : send_res) :
  Inv s -> nth_error (conns s) i = Some c -> fifo c <> [] ->
  connected c = true -> o = SendDisconnected \/ o = SendFail ->
  exists s', initiate_send i o s = (inl tt, s') /\ Inv s' /\
             nth_error (conns s') i = Some (mark_closed (incr_unregs c)).
Proof.
  intros HI Hn Hf Cc Ho.
  assert (Hm : in_map c = true).
  { destruct HI as [_ Hall]; destruct (Forall_nth _ _ _ _ Hall Hn) as [_ Hx].
    destruct (in_map c) eqn:Hm; auto; rewrite (Hx eq_refl) in Cc; discriminate. }
  cbv [initiate_send bind catch send ret raise get_conn handle_error].
  rewrite Hn, Cc.
  destruct (fifo c) as [|y f]; [congruence|]; simpl.
  destruct (handle_close_open s i c HI Hn Hm) as [s1 [E [I [N _]]]].
  destruct Ho as [-> | ->]; rewrite E; eauto.
Qed.

Lemma modify_eq (i : nat) (f : Conn -> Conn) (s : Sys) :
  modify_conn i f s = (inl tt, snd (modify_conn i f s)).
Proof. reflexivity. Qed.

(** The scanning loop only rewrites [ac_in_buffer]: any property of the
    state kept by such a rewrite holds at its end. *)
Lemma scan_loop_pres (P : Sys -> Prop) (fuel : nat) (s : Sys) (i : nat) :
  (forall s b, P s -> P (snd (modify_conn i (set_in_buf b) s))) ->
  P s -> (i < length (conns s))%nat ->
  exists s', scan_loop fuel i s = (inl tt, s') /\ P s' /\
    length (conns s') = length (conns s).
Proof.
  intros HPi; revert s; induction fuel as [|fuel IH]; intros s HP Hi;
    [exists s; auto|].
  destruct (nth_Some _ _ Hi) as [c Hn].
  cbn [scan_loop].
  cbv [bind collect_incoming_data found_terminator ret get_conn].
  rewrite Hn.
  destruct (is_nil (in_buf c)); [exists s; auto|].
  assert (Hl : forall b, length (conns (snd (modify_conn i (set_in_buf b) s)))
                         = length (conns s))
    by (intros b; apply length_upd).
  destruct (find_sub (in_buf c) handler_terminator) as [idx|].
  - destruct (IH _ (HPi s (skipn (idx + length handler_terminator) (in_buf c))
                    HP)) as [s2 [E2 [P2 L2]]]; [rewrite Hl; exact Hi|].
    destruct (0 <? idx)%nat; cbv beta iota;
      (match goal with
       | |- context [modify_conn i ?f s] =>
           rewrite (modify_eq i f s); cbv beta iota
       end);
      rewrite E2; exists s2;
      (split; [reflexivity| split; [exact P2| rewrite L2, Hl; reflexivity]]).
  - destruct (find_prefix_at_end (in_buf c) handler_terminator =? 0)%nat.
    + match goal with
      | |- context [modify_conn i ?f s] =>
          rewrite (modify_eq i f s); cbv beta iota
      end.
      destruct (IH _ (HPi s [] HP)) as [s2 [E2 [P2 L2]]];
        [rewrite Hl; exact Hi|].
      rewrite E2; exists s2; split; [reflexivity|]; split; [exact P2|].
      rewrite L2, Hl; reflexivity.
    + destruct (_ =? length (in_buf c))%nat; [exists s; auto|].
      match goal with
      | |- context [modify_conn i ?f s] =>
          rewrite (modify_eq i f s); cbv beta iota
      end.
      eexists; split; [reflexivity|]; split; [apply HPi, HP|apply Hl].
Qed.

Lemma scan_loop_ok (fuel : nat) (s : Sys) (i : nat) :
  Inv s -> (i < length (conns s))%nat ->
  exists s', scan_loop fuel i s = (inl tt, s') /\ Inv s' /\
    length (conns s') = length (conns s) /\
    map in_map (conns s') = map in_map (conns s).
Proof.
  intros HI Hi.
  destruct (scan_loop_pres
              (fun s' => Inv s' /\ map in_map (conns s') = map in_map (conns s))
              fuel s i) as [s' [E [[I M] L]]].
  - intros s1 b [I1 M1]; split.
    + apply (inv_modify_neutral s1 i _ (neutral_set_in_buf b) I1).
    + rewrite map_in_map_neutral; [exact M1|apply neutral_set_in_buf].
  - split; [exact HI|reflexivity].
  - exact Hi.
  - exists s'; auto.
Qed.

Lemma absorb_ok (s : Sys) (i : nat) (data : bytes) :
  Inv s -> (i < length (conns s))%nat ->
  exists s', absorb i data s = (inl tt, s') /\ Inv s' /\
    length (conns s') = length (conns s) /\
    map in_map (conns s') = map in_map (conns s).
Proof.
  intros HI Hi; destruct (nth_Some _ _ Hi) as [c Hn].
  unfold absorb; rewrite (bind_ok _ _ _ _ _ (get_conn_ok s i c Hn)).
  destruct (inv_modify_neutral s i (set_in_buf (in_buf c ++ data))
              (neutral_set_in_buf _) HI) as [E [I L]].
  pose proof (map_in_map_neutral s i (set_in_buf (in_buf c ++ data))
                (neutral_set_in_buf _)) as Mm.
  rewrite (bind_ok _ _ _ _ _ E).
  destruct (scan_loop_ok (S (length (in_buf c ++ data))) _ i I) as
    [s2 [E2 [I2 [L2 M2]]]]; [lia|].
  rewrite E2; exists s2; split; [reflexivity|]; split; [exact I2|].
  split; congruence.
Qed.

Lemma inv_closed_at (s : Sys) (i : nat) :
  Inv s -> nth_error (map in_map (conns s)) i = Some false ->
  exists c', nth_error (conns s) i = Some c' /\ in_map c' = false /\
             unregs c' = 1%nat.
Proof.
  intros [_ Hall] H; rewrite nth_error_map in H.
  destruct (nth_error (conns s) i) as [c'|] eqn:Hn; [|discriminate].
  injection H as H; exists c'; split; [reflexivity|]; split; [exact H|].
  destruct (Forall_nth _ _ _ _ Hall Hn) as [U _]; rewrite H in U; exact U.
Qed.

Lemma handle_read_ok (s : Sys) (i : nat) (c : Conn) (r : recv_res) :
  Inv s -> nth_error (conns s) i = Some c -> in_map c = true ->
  exists s', handle_read i r s = (inl tt, s') /\ Inv s' /\
    ((r = RecvBytes [] \/ r = RecvDisconnected \/ r = RecvFail) ->
     nth_error (map in_map (conns s')) i = Some false).
Proof.
  intros HI Hn Ho.
  assert (Hi : (i < length (conns s))%nat)
    by (apply nth_error_Some; congruence).
  destruct (handle_close_open s i c HI Hn Ho) as [s1 [E1 [I1 [N1 L1]]]].
  assert (Hi1 : (i < length (conns s1))%nat) by lia.
  assert (C1 : nth_error (map in_map (conns s1)) i = Some false)
    by (rewrite nth_error_map, N1; reflexivity).
  cbv [handle_read recv bind ret handle_error].
  destruct r as [d| | |].
  - destruct (is_nil d) eqn:Hd.
    + rewrite E1.
      destruct (absorb_ok s1 i [] I1 Hi1) as [s2 [E2 [I2 [L2 M2]]]].
      rewrite E2; exists s2; split; [reflexivity|]; split; [exact I2|].
      intros _; rewrite M2; exact C1.
    + destruct (absorb_ok s i d HI Hi) as [s2 [E2 [I2 [L2 M2]]]].
      rewrite E2; exists s2; split; [reflexivity|]; split; [exact I2|].
      intros [H|[H|H]]; try discriminate.
      injection H as ->; discriminate.
  - exists s; split; [reflexivity|]; split; [exact HI|].
    intros [H|[H|H]]; discriminate.
  - rewrite E1.
    destruct (absorb_ok s1 i [] I1 Hi1) as [s2 [E2 [I2 [L2 M2]]]].
    rewrite E2; exists s2; split; [reflexivity|]; split; [exact I2|].
    intros _; rewrite M2; exact C1.
  - rewrite E1; exists s1; split; [reflexivity|]; split; [exact I1|].
    intros _; exact C1.
Qed.

Lemma inv_set_queue (s : Sys) (q : list pystr) : Inv s -> Inv (set_queue q s).
Proof. intros [H1 H2]; split; exact H1 || exact H2. Qed.

Lemma handle_write_ok (s : Sys) (i : nat) (c : Conn) (o1 o2 : send_res) :
  Inv s -> nth_error (conns s) i = Some c -> in_map c = true ->
  (exists s', handle_write i o1 o2 s = (inl tt, s') /\ Inv s') \/
  (exists s', handle_write i o1 o2 s = (inr UnicodeEncodeError, s') /\
              Inv s' /\ nth_error (conns s') i = Some c).
Proof.
  intros HI Hn Ho.
  assert (Hi : (i < length (conns s))%nat)
    by (apply nth_error_Some; congruence).
  destruct (queue s) as [|x q] eqn:Hq.
  - rewrite (handle_write_empty s i o1 o2 Hq); left.
    destruct (initiate_send_ok s i o2 HI Hi) as [s1 [E1 [I1 _]]]; eauto.
  - rewrite (handle_write_item s i o1 o2 x q Hq).
    destruct (frame x) as [b|].
    + left.
      destruct (inv_modify_neutral (set_queue q s) i (append_fifo b)
                  (neutral_append_fifo b) (inv_set_queue s q HI)) as [_ [I1 L1]].
      destruct (initiate_send_ok _ i o1 I1) as [s2 [E2 [I2 L2]]];
        [simpl in *; lia|].
      rewrite (bind_ok _ _ _ _ _ E2).
      destruct (initiate_send_ok s2 i o2 I2) as [s3 [E3 [I3 _]]];
        [simpl in *; lia|].
      rewrite E3; eauto.
    + right; exists (set_queue q s); split; [reflexivity|].
      split; [apply inv_set_queue, HI|exact Hn].
Qed.

Lemma open_count_app (l1 l2 : list Conn) :
  open_count (l1 ++ l2) = (open_count l1 + open_count l2)%nat.
Proof. induction l1 as [|c l1 IH]; simpl; [reflexivity|]; rewrite IH; lia. Qed.

Lemma step_ok (e : event) (s : Sys) :
  Inv s -> exists s', step e s = Some s' /\ Inv s'.
Proof.
  intros HI; destruct e as [[|b]|i r|i o1 o2|x].
  - exists s; split; [reflexivity|exact HI].
  - cbv [step handle_accept bind accept_sock get_count ret add_handler
         set_count]; cbn [count queue conns accepted closed].
    destruct (count s <? MAXCONN).
    + eexists; split; [reflexivity|].
      destruct HI as [Hc Hall]; split; cbn [count conns].
      * rewrite open_count_app, Hc; simpl; lia.
      * apply Forall_app; split; [exact Hall|].
        constructor; [|constructor]; split; [reflexivity|discriminate].
    + eexists; split; [reflexivity|]; destruct HI; split; assumption.
  - simpl; destruct (nth_error (conns s) i) as [c|] eqn:Hn; [|eauto].
    destruct (in_map c) eqn:Ho; [|eauto].
    destruct (handle_read_ok s i c r HI Hn Ho) as [s1 [E1 [I1 _]]].
    unfold dispatch; rewrite E1; eauto.
  - simpl; destruct (nth_error (conns s) i) as [c|] eqn:Hn; [|eauto].
    destruct (in_map c && writable (queue s) c) eqn:Hw; [|eauto].
    apply andb_true_iff in Hw; destruct Hw as [Ho _].
    unfold dispatch.
    destruct (handle_write_ok s i c o1 o2 HI Hn Ho) as
      [[s1 [E1 I1]]|[s1 [E1 [I1 N1]]]]; rewrite E1; [eauto|].
    destruct (handle_close_open s1 i c I1 N1 Ho) as [s2 [E2 [I2 _]]].
    unfold handle_error; rewrite E2; eauto.
  - simpl; destruct (q_put x (queue s)); eexists; split; try reflexivity;
      [apply inv_set_queue|]; exact HI.
Qed.

Lemma run_ok (evs : list event) (s : Sys) :
  Inv s -> exists s', run evs s = Some s' /\ Inv s'.
Proof.
  revert s; induction evs as [|e evs IH]; intros s HI; simpl; [eauto|].
  destruct (step_ok e s HI) as [s1 [E1 I1]]; rewrite E1; apply IH, I1.
Qed.

Lemma inv_init (q : list pystr) : Inv (init_sys q).
Proof. split; [reflexivity|constructor]. Qed.

(** C8: whatever events the relay sees (accepts, consumer data, end of
    stream, resets and read failures, send outcomes including disconnects
    and failures, producer puts), the loop never dies, the count equals the
    number of open handlers, and every handler has called [unregister()]
    exactly once if it has been torn down and never while open; a peer
    close or a read failure on an open handler, and a failing send of its
    pending output, tear it down. *)
Theorem teardown_unregisters_once (q : list pystr) (evs : list event) :
  (exists s, run evs (init_sys q) = Some s) /\
  forall s, run evs (init_sys q) = Some s ->
    count s = Z.of_nat (open_count (conns s)) /\
    Forall (fun c => unregs c = (if in_map c then 0 else 1)%nat) (conns s) /\
    forall i c, nth_error (conns s) i = Some c -> in_map c = true ->
      (forall r, r = RecvBytes [] \/ r = RecvDisconnected \/ r = RecvFail ->
         exists s' c', step (EvRead i r) s = Some s' /\
           nth_error (conns s') i = Some c' /\ in_map c' = false /\
           unregs c' = 1%nat) /\
      (forall o1 o2, queue s = [] -> fifo c <> [] -> connected c = true ->
         o2 = SendDisconnected \/ o2 = SendFail ->
         exists s' c', step (EvWrite i o1 o2) s = Some s' /\
           nth_error (conns s') i = Some c' /\ in_map c' = false /\
           unregs c' = 1%nat).
Proof.
  destruct (run_ok evs (init_sys q) (inv_init q)) as [s0 [E0 I0]].
  split; [eauto|].
  intros s Hs; rewrite E0 in Hs; injection Hs as <-.
  destruct I0 as [Hc Hall].
  split; [exact Hc|]; split.
  { eapply Forall_impl; [|exact Hall]; intros c [U _]; exact U. }
  intros i c Hn Ho; split.
  - intros r Hr.
    destruct (handle_read_ok s0 i c r (conj Hc Hall) Hn Ho) as
      [s1 [E1 [I1 C1]]].
    destruct (inv_closed_at s1 i I1 (C1 Hr)) as [c' [N' [M' U']]].
    exists s1, c'; split; [|auto].
    simpl; rewrite Hn, Ho; unfold dispatch; rewrite E1; reflexivity.
  - intros o1 o2 Hq Hf Cc Ho2.
    destruct (initiate_send_fail s0 i c o2 (conj Hc Hall) Hn Hf Cc Ho2) as
      [s1 [E1 [I1 N1]]].
    exists s1, (mark_closed (incr_unregs c)).
    split; [|split; [exact N1|split; [reflexivity|]]].
    + assert (Hw : writable (queue s0) c = true).
      { unfold writable, ac_writable.
        destruct (fifo c); [congruence|reflexivity]. }
      simpl; rewrite Hn, Ho, Hw; simpl; unfold dispatch.
      rewrite (handle_write_empty s0 i o1 o2 Hq), E1; reflexivity.
    + destruct (Forall_nth _ _ _ _ Hall Hn) as [U _]; rewrite Ho in U.
      simpl; rewrite U; reflexivity.
Qed.

Lemma teardown_unregisters_once_witness :
  let evs := [EvAccept (AccPair true); EvAccept (AccPair true);
              EvPut [65]; EvWrite 0 (SendOk 1) (SendOk 0)] in
  exists s c, run evs (init_sys []) = Some s /\
    nth_error (conns s) 0 = Some c /\ in_map c = true /\
    exists s' c', step (EvRead 0 RecvDisconnected) s = Some s' /\
      nth_error (conns s') 0 = Some c' /\ in_map c' = false /\
      unregs c' = 1%nat.
Proof.
  intros evs.
  destruct (teardown_unregisters_once [] evs) as [[s Hs] H].
  destruct (H s Hs) as [_ [_ Hall]].
  assert (Hn : nth_error (conns s) 0 =
               Some (mkConn true true [10] [65] [] 0 0)).
  { assert (R : run evs (init_sys []) =
                Some (mkSys 2 [] [mkConn true true [10] [65] [] 0 0;
                                  mkConn true true [] [] [] 1 0] 2 [])).
    { vm_compute; reflexivity. }
    rewrite R in Hs; injection Hs as <-; reflexivity. }
  exists s, (mkConn true true [10] [65] [] 0 0).
  split; [exact Hs|]; split; [exact Hn|]; split; [reflexivity|].
  apply (proj1 (Hall 0%nat _ Hn eq_refl)).
  right; left; reflexivity.
Defined.

(** ** The consumers' data *)

Lemma strip_fields (s s' : Sys) :
  strip s = strip s' ->
  count s = count s' /\ queue s = queue s' /\
  map strip_conn (conns s) = map strip_conn (conns s') /\
  accepted s = accepted s' /\ closed s = closed s'.
Proof. unfold strip; intros H; injection H; auto. Qed.

Lemma strip_intro (s s' : Sys) :
  count s = count s' -> queue s = queue s' ->
  map strip_conn (conns s) = map strip_conn (conns s') ->
  accepted s = accepted s' -> closed s = closed s' ->
  strip s = strip s'.
Proof. intros; unfold strip; congruence. Qed.

Lemma same_conn_fields (c c' : Conn) :
  same_conn c c' ->
  connected c = connected c' /\ in_map c = in_map c' /\ fifo c = fifo c' /\
  sent c = sent c' /\ sock c = sock c' /\ unregs c = unregs c'.
Proof.
  destruct c, c'; unfold same_conn; simpl; intros H; injection H.
  intros; subst; auto 10.
Qed.

Lemma strip_upd (i : nat) (f f' : Conn -> Conn) (l l' : list Conn) :
  conn_resp f f' ->
  map strip_conn l = map strip_conn l' ->
  map strip_conn (upd i f l) = map strip_conn (upd i f' l').
Proof.
  intros Hf; revert i l'; induction l as [|c l IH];
    intros i [|c' l'] H; cbn [map] in H; try discriminate;
    [destruct i; reflexivity|].
  assert (Hc : strip_conn c = strip_conn c') by congruence.
  assert (Hl : map strip_conn l = map strip_conn l') by congruence.
  destruct i; cbn [upd map]; f_equal; auto; apply Hf; exact Hc.
Qed.

Lemma strip_upd_in_buf (i : nat) (b : bytes) (l : list Conn) :
  map strip_conn (upd i (set_in_buf b) l) = map strip_conn l.
Proof. revert i; induction l; intros [|i]; simpl; f_equal; auto. Qed.

Lemma strip_set_in_buf (s : Sys) (i : nat) (b : bytes) :
  strip (snd (modify_conn i (set_in_buf b) s)) = strip s.
Proof. apply strip_intro; simpl; auto using strip_upd_in_buf. Qed.

Lemma nth_strip (s s' : Sys) (i : nat) :
  strip s = strip s' ->
  option_map strip_conn (nth_error (conns s) i) =
  option_map strip_conn (nth_error (conns s') i).
Proof.
  intros E; destruct (strip_fields _ _ E) as (_ & _ & N & _).
  rewrite <- !nth_error_map, N; reflexivity.
Qed.

Ltac conn_resp_tac :=
  let c := fresh "c" in let c' := fresh "c'" in let H := fresh "H" in
  intros c c' H; destruct c, c'; unfold same_conn in *; simpl in *;
  injection H; intros; subst; reflexivity.

Lemma conn_resp_incr_unregs : conn_resp incr_unregs incr_unregs.
Proof. conn_resp_tac. Qed.
Lemma conn_resp_mark_closed : conn_resp mark_closed mark_closed.
Proof. conn_resp_tac. Qed.
Lemma conn_resp_append_fifo (d : bytes) : conn_resp (append_fifo d) (append_fifo d).
Proof. conn_resp_tac. Qed.
Lemma conn_resp_move_sent (n : nat) : conn_resp (move_sent n) (move_sent n).
Proof. conn_resp_tac. Qed.

Lemma resp_ret {A} (RA : A -> A -> Prop) (a a' : A) :
  RA a a' -> resp RA (ret a) (ret a').
Proof. intros H s s' E; split; [exact E|exact H]. Qed.

Lemma resp_raise {A} (RA : A -> A -> Prop) (e : exn) :
  resp RA (raise e) (raise e).
Proof. intros s s' E; split; [exact E|reflexivity]. Qed.

Lemma resp_bind {A B} (RA : A -> A -> Prop) (RB : B -> B -> Prop)
      (m m' : M A) (k k' : A -> M B) :
  resp RA m m' -> (forall a a', RA a a' -> resp RB (k a) (k' a')) ->
  resp RB (bind m k) (bind m' k').
Proof.
  intros Hm Hk s s' E; unfold bind.
  specialize (Hm s s' E).
  destruct (m s) as [[a|e] t], (m' s') as [[a'|e'] t'];
    destruct Hm as [Et R]; simpl in *; try contradiction.
  - apply Hk; assumption.
  - split; assumption.
Qed.

Lemma resp_catch {A} (RA : A -> A -> Prop) (m m' : M A) (h : exn -> M A) :
  resp RA m m' -> (forall e, resp RA (h e) (h e)) ->
  resp RA (catch m h) (catch m' h).
Proof.
  intros Hm Hh s s' E; unfold catch.
  specialize (Hm s s' E).
  destruct (m s) as [[a|e] t], (m' s') as [[a'|e'] t'];
    destruct Hm as [Et R]; simpl in *; try contradiction.
  - split; assumption.
  - subst; apply Hh; assumption.
Qed.

Lemma resp_get_conn (i : nat) : resp same_conn (get_conn i) (get_conn i).
Proof.
  intros s s' E; unfold get_conn.
  pose proof (nth_strip s s' i E) as N.
  destruct (nth_error (conns s) i), (nth_error (conns s') i);
    simpl in N; try discriminate; split; simpl; auto.
  unfold same_conn; congruence.
Qed.

Lemma resp_modify (i : nat) (f f' : Conn -> Conn) :
  conn_resp f f' -> resp eq (modify_conn i f) (modify_conn i f').
Proof.
  intros Hf s s' E; destruct (strip_fields _ _ E) as (E1 & E2 & E3 & E4 & E5).
  split; [|reflexivity]; apply strip_intro; simpl; auto using strip_upd.
Qed.

Lemma resp_note_closed (k : nat) : resp eq (note_closed k) (note_closed k).
Proof.
  intros s s' E; destruct (strip_fields _ _ E) as (E1 & E2 & E3 & E4 & E5).
  split; [|reflexivity]; apply strip_intro; simpl; congruence.
Qed.

Lemma resp_unregister : resp eq unregister unregister.
Proof.
  intros s s' E; destruct (strip_fields _ _ E) as (E1 & E2 & E3 & E4 & E5).
  unfold unregister; rewrite E1; destruct (count s' <=? 0);
    (split; [|reflexivity]); [exact E|].
  apply strip_intro; simpl; congruence.
Qed.

Lemma resp_handle_close (i : nat) : resp eq (handle_close i) (handle_close i).
Proof.
  unfold handle_close, close.
  apply (resp_bind eq); [apply resp_modify, conn_resp_incr_unregs|].
  intros _ _ _; apply (resp_bind eq); [apply resp_unregister|].
  intros _ _ _; apply (resp_bind same_conn); [apply resp_get_conn|].
  intros c c' Hc; apply (resp_bind eq);
    [apply resp_modify, conn_resp_mark_closed|].
  intros _ _ _; destruct (same_conn_fields _ _ Hc) as (_ & _ & _ & _ & K & _).
  rewrite K; apply resp_note_closed.
Qed.

Lemma resp_send (i : nat) (o : send_res) : resp eq (send i o) (send i o).
Proof.
  destruct o; simpl.
  - apply resp_ret; reflexivity.
  - apply (resp_bind eq); [apply resp_handle_close|].
    intros _ _ _; apply resp_ret; reflexivity.
  - apply resp_raise.
Qed.

Lemma resp_initiate_send (i : nat) (o : send_res) :
  resp eq (initiate_send i o) (initiate_send i o).
Proof.
  unfold initiate_send.
  apply (resp_bind same_conn); [apply resp_get_conn|].
  intros c c' Hc; destruct (same_conn_fields _ _ Hc) as (C & _ & F & _).
  rewrite C, F; destruct (negb (is_nil (fifo c')) && connected c');
    [|apply resp_ret; reflexivity].
  apply (resp_bind eq).
  - apply resp_catch.
    + apply (resp_bind eq); [apply resp_send|].
      intros n _ <-; apply resp_ret; reflexivity.
    + intros []; try apply resp_raise.
      apply (resp_bind eq); [apply resp_handle_close|].
      intros _ _ _; apply resp_ret; reflexivity.
  - intros r _ <-; destruct r as [n|]; [|apply resp_ret; reflexivity].
    destruct (n =? 0)%nat; [apply resp_ret; reflexivity|].
    apply resp_modify, conn_resp_move_sent.
Qed.

Lemma resp_handle_write (i : nat) (o1 o2 : send_res) :
  resp eq (handle_write i o1 o2) (handle_write i o1 o2).
Proof.
  unfold handle_write, push.
  apply (resp_bind eq).
  - apply resp_catch.
    + apply (resp_bind eq).
      * intros s s' E; destruct (strip_fields _ _ E) as (E1 & E2 & E3 & E4 & E5).
        unfold queue_get0; rewrite E2.
        destruct (q_get_nowait (queue s')) as [[x q']|];
          (split; [|reflexivity]); [|exact E].
        apply strip_intro; simpl; congruence.
      * intros x _ <-; apply resp_ret; reflexivity.
    + intros []; try apply resp_raise; apply resp_ret; reflexivity.
  - intros r _ <-; apply (resp_bind eq); [|intros _ _ _; apply resp_initiate_send].
    destruct r as [item|]; [|apply resp_ret; reflexivity].
    destruct (frame item) as [b|]; [|apply resp_raise].
    apply (resp_bind eq); [apply resp_modify, conn_resp_append_fifo|].
    intros _ _ _; apply resp_initiate_send.
Qed.

Lemma resp_handle_accept (a : accept_res) :
  resp eq (handle_accept a) (handle_accept a).
Proof.
  destruct a as [|peer_ok]; simpl; [apply resp_ret; reflexivity|].
  apply (resp_bind eq).
  { intros s s' E; destruct (strip_fields _ _ E) as (E1 & E2 & E3 & E4 & E5).
    split; [apply strip_intro; simpl; congruence|exact E4]. }
  intros k _ <-; apply (resp_bind eq).
  { intros s s' E; destruct (strip_fields _ _ E) as (E1 & E2 & E3 & E4 & E5).
    split; [exact E|exact E1]. }
  intros n _ <-; destruct (n <? MAXCONN); [|apply resp_ret; reflexivity].
  apply (resp_bind eq).
  { intros s s' E; destruct (strip_fields _ _ E) as (E1 & E2 & E3 & E4 & E5).
    split; [apply strip_intro; simpl; congruence|reflexivity]. }
  intros _ _ _ s s' E; destruct (strip_fields _ _ E) as (E1 & E2 & E3 & E4 & E5).
  split; [|reflexivity]; apply strip_intro; simpl; try congruence.
  rewrite !map_app; congruence.
Qed.

Lemma absorb_strip (s : Sys) (i : nat) (data : bytes) :
  (i < length (conns s))%nat ->
  exists t, absorb i data s = (inl tt, t) /\ strip t = strip s.
Proof.
  intros Hi; destruct (nth_Some _ _ Hi) as [c Hn].
  unfold absorb; rewrite (bind_ok _ _ _ _ _ (get_conn_ok s i c Hn)).
  rewrite (bind_ok _ _ _ _ _ (modify_eq i (set_in_buf (in_buf c ++ data)) s)).
  destruct (scan_loop_pres (fun t => strip t = strip s)
              (S (length (in_buf c ++ data))) 
              (snd (modify_conn i (set_in_buf (in_buf c ++ data)) s)) i)
    as [t [E [P _]]].
  - intros t b Ht; rewrite strip_set_in_buf; exact Ht.
  - apply strip_set_in_buf.
  - simpl; rewrite length_upd; exact Hi.
  - exists t; auto.
Qed.

(** Whatever bytes arrive, [absorb] ends in the same stripped state. *)
Lemma resp_absorb (i : nat) (d d' : bytes) :
  resp eq (absorb i d) (absorb i d').
Proof.
  intros s s' E.
  assert (L : length (conns s) = length (conns s')).
  { destruct (strip_fields _ _ E) as (_ & _ & N & _).
    rewrite <- (length_map strip_conn (conns s)), N, length_map; reflexivity. }
  destruct (Nat.lt_ge_cases i (length (conns s))) as [Hi|Hi].
  - destruct (absorb_strip s i d Hi) as [t [Et Pt]].
    destruct (absorb_strip s' i d') as [t' [Et' Pt']]; [lia|].
    rewrite Et, Et'; split; [simpl; congruence|reflexivity].
  - assert (N1 : nth_error (conns s) i = None) by (apply nth_error_None; lia).
    assert (N2 : nth_error (conns s') i = None) by (apply nth_error_None; lia).
    unfold absorb, bind, get_conn; rewrite N1, N2; split; [exact E|reflexivity].
Qed.

Lemma resp_recv (i : nat) (r : recv_res) : resp eq (recv i r) (recv i r).
Proof.
  destruct r as [d| | |]; simpl.
  - destruct (is_nil d); [|apply resp_ret; reflexivity].
    apply (resp_bind eq); [apply resp_handle_close|].
    intros _ _ _; apply resp_ret; reflexivity.
  - apply resp_ret; reflexivity.
  - apply (resp_bind eq); [apply resp_handle_close|].
    intros _ _ _; apply resp_ret; reflexivity.
  - apply resp_ret; reflexivity.
Qed.

Lemma resp_handle_read (i : nat) (r : recv_res) :
  resp eq (handle_read i r) (handle_read i r).
Proof.
  unfold handle_read; apply (resp_bind eq); [apply resp_recv|].
  intros [data|[|e]] _ <-; [apply resp_absorb|apply resp_ret; reflexivity|].
  apply resp_handle_close.
Qed.

Lemma resp_handle_read_data (i : nat) (d d' : bytes) :
  d <> [] -> d' <> [] ->
  resp eq (handle_read i (RecvBytes d)) (handle_read i (RecvBytes d')).
Proof.
  intros Hd Hd' s s' E.
  destruct d as [|x d]; [congruence|]; destruct d' as [|x' d']; [congruence|].
  apply (resp_absorb i (x :: d) (x' :: d') s s' E).
Qed.

Lemma dispatch_resp (i : nat) (m m' : M unit) (s s' : Sys) :
  resp eq m m' -> strip s = strip s' ->
  opt_rel (dispatch i m s) (dispatch i m' s').
Proof.
  intros Hm E; unfold dispatch; specialize (Hm s s' E).
  destruct (m s) as [[a|e] t], (m' s') as [[a'|e'] t'];
    destruct Hm as [Et R]; simpl in *; try contradiction; [exact Et|].
  pose proof (resp_handle_close i t t' Et) as [Et2 R2]; unfold handle_error.
  destruct (handle_close i t) as [[?|?] ?], (handle_close i t') as [[?|?] ?];
    simpl in *; try contradiction; auto.
Qed.

Lemma step_resp_same (e : event) (s s' : Sys) :
  strip s = strip s' -> opt_rel (step e s) (step e s').
Proof.
  intros E; destruct (strip_fields _ _ E) as (E1 & E2 & E3 & E4 & E5).
  destruct e as [a|i r|i o1 o2|x]; simpl.
  - pose proof (resp_handle_accept a s s' E) as [Et R].
    destruct (handle_accept a s) as [[?|?] ?], (handle_accept a s') as [[?|?] ?];
      simpl in *; try contradiction; auto.
  - pose proof (nth_strip s s' i E) as N.
    destruct (nth_error (conns s) i) as [c|], (nth_error (conns s') i) as [c'|];
      simpl in N; try discriminate; [|exact E].
    assert (N' : same_conn c c') by (unfold same_conn; congruence).
    destruct (same_conn_fields _ _ N') as (_ & M & _).
    rewrite M; destruct (in_map c'); [|exact E].
    apply dispatch_resp; [apply resp_handle_read|exact E].
  - pose proof (nth_strip s s' i E) as N.
    destruct (nth_error (conns s) i) as [c|], (nth_error (conns s') i) as [c'|];
      simpl in N; try discriminate; [|exact E].
    assert (N' : same_conn c c') by (unfold same_conn; congruence).
    destruct (same_conn_fields _ _ N') as (C & M & F & _).
    unfold writable, ac_writable; rewrite M, C, F, E2.
    destruct (_ && _); [|exact E].
    apply dispatch_resp; [apply resp_handle_write|exact E].
  - rewrite E2; destruct (q_put x (queue s')); [|exact E].
    apply strip_intro; simpl; congruence.
Qed.

Lemma same_but_data_cases (e e' : event) :
  same_but_data e e' ->
  e = e' \/ exists i d d', e = EvRead i (RecvBytes d) /\
                           e' = EvRead i (RecvBytes d') /\ d <> [] /\ d' <> [].
Proof.
  destruct e as [|i [d| | |]| |], e' as [|i' [d'| | |]| |]; simpl; intros H;
    try (left; exact H).
  right; destruct H as (-> & H1 & H2); eauto 10.
Qed.

Lemma step_resp (e e' : event) (s s' : Sys) :
  same_but_data e e' -> strip s = strip s' -> opt_rel (step e s) (step e' s').
Proof.
  intros H E; destruct (same_but_data_cases e e' H) as
    [<-|(i & d & d' & -> & -> & Hd & Hd')]; [apply step_resp_same, E|].
  destruct (strip_fields _ _ E) as (E1 & E2 & E3 & E4 & E5); simpl.
  pose proof (nth_strip s s' i E) as N.
  destruct (nth_error (conns s) i) as [c|], (nth_error (conns s') i) as [c'|];
    simpl in N; try discriminate; [|exact E].
  assert (N' : same_conn c c') by (unfold same_conn; congruence).
  destruct (same_conn_fields _ _ N') as (_ & M & _).
  rewrite M; destruct (in_map c'); [|exact E].
  apply dispatch_resp; [apply resp_handle_read_data; assumption|exact E].
Qed.

Lemma run_resp (evs evs' : list event) :
  Forall2 same_but_data evs evs' ->
  forall s s', strip s = strip s' -> opt_rel (run evs s) (run evs' s').
Proof.
  induction 1 as [|e e' evs evs' He _ IH]; intros s s' E; simpl; [exact E|].
  pose proof (step_resp e e' s s' He E) as R.
  destruct (step e s), (step e' s'); simpl in R; try contradiction; auto.
Qed.

Lemma observe_strip (s s' : Sys) :
  strip s = strip s' -> observe s = observe s'.
Proof.
  intros E; destruct (strip_fields _ _ E) as (E1 & E2 & E3 & E4 & E5).
  unfold observe; rewrite E1, E2.
  replace (map sent (conns s)) with (map sent (map strip_conn (conns s)))
    by (rewrite map_map; reflexivity).
  rewrite E3, map_map; reflexivity.
Qed.

(** C10: [collect_incoming_data] and [found_terminator] leave the state as
    it is, and two runs of the relay whose events differ only in the
    (non-empty) bytes consumers send agree on whether the relay keeps
    running and, if so, on the count, the queue and the bytes each
    consumer's socket has taken. *)
Theorem consumer_data_ignored (evs evs' : list event) (s : Sys) :
  Forall2 same_but_data evs evs' ->
  (forall d t, collect_incoming_data d t = (inl tt, t)) /\
  (forall t, found_terminator t = (inl tt, t)) /\
  option_map observe (run evs s) = option_map observe (run evs' s).
Proof.
  intros H; split; [reflexivity|]; split; [reflexivity|].
  pose proof (run_resp evs evs' H s s eq_refl) as R.
  destruct (run evs s), (run evs' s); simpl in R; try contradiction;
    [|reflexivity].
  simpl; f_equal; apply observe_strip, R.
Qed.

Lemma consumer_data_ignored_witness :
  let evs := [EvAccept (AccPair true); EvRead 0 (RecvBytes [104; 105]);
              EvPut [65]; EvWrite 0 (SendOk 2) (SendOk 0)] in
  let evs' := [EvAccept (AccPair true);
               EvRead 0 (RecvBytes [13; 10; 13; 10; 120]);
               EvPut [65]; EvWrite 0 (SendOk 2) (SendOk 0)] in
  Forall2 same_but_data evs evs' /\
  option_map observe (run evs (init_sys [])) =
  option_map observe (run evs' (init_sys [])).
Proof.
  intros evs evs'.
  assert (H : Forall2 same_but_data evs evs').
  { repeat constructor; discriminate. }
  split; [exact H|].
  apply (consumer_data_ignored evs evs' (init_sys []) H).
Defined.

(** ** [LanguageDetector] *)

Lemma ld_eq_spec (lower : pystr -> pystr) (ld : LanguageDetector)
      (text : pystr) :
  ld_eq lower ld text = true <->
  (Z.of_nat (length (set_diff (py_set (map lower (str_split text)))
                              (vocabulary ld))) * Zpos (Qden (threshold ld)) <=
   Z.of_nat (length (py_set (map lower (str_split text)))) *
   Qnum (threshold ld))%Z.
Proof.
  unfold ld_eq, Qle_bool, Qmult, inject_Z; cbn [Qnum Qden].
  rewrite Pos.mul_1_l, Z.mul_1_r, Z.leb_le; reflexivity.
Qed.


Lemma str_in_iff (w : pystr) (ws : list pystr) :
  str_in w ws = true <-> In w ws.
Proof. unfold str_in; destruct (in_dec str_eq_dec w ws); split; auto; discriminate. Qed.

Lemma set_diff_In (w : pystr) (a b : list pystr) :
  In w (set_diff a b) <-> In w a /\ ~ In w b.
Proof.
  unfold set_diff; rewrite filter_In, negb_true_iff.
  destruct (str_in w b) eqn:E.
  - apply str_in_iff in E; split; [intros [_ H]; discriminate|tauto].
  - split; [intros [H _]; split; [exact H|]|tauto].
    intros Hb; apply str_in_iff in Hb; congruence.
Qed.

Lemma filter_length_mono {A} (f g : A -> bool) (l : list A) :
  (forall x, In x l -> f x = true -> g x = true) ->
  (length (filter f l) <= length (filter g l))%nat.
Proof.
  induction l as [|x l IH]; intros H; simpl; [lia|].
  assert (IH' : (length (filter f l) <= length (filter g l))%nat)
    by (apply IH; intros y Hy; apply H; right; exact Hy).
  destruct (f x) eqn:Ef.
  - rewrite (H x (or_introl eq_refl) Ef); simpl; lia.
  - destruct (g x); simpl; lia.
Qed.

Lemma nodup_length_eq (l1 l2 : list pystr) :
  NoDup l1 -> NoDup l2 -> (forall x, In x l1 <-> In x l2) ->
  length l1 = length l2.
Proof.
  intros N1 N2 H; apply Nat.le_antisymm; apply NoDup_incl_length; auto;
    intros x Hx; apply H; exact Hx.
Qed.

Lemma set_diff_NoDup (a b : list pystr) : NoDup a -> NoDup (set_diff a b).
Proof. intros H; apply NoDup_filter, H. Qed.


Lemma set_diff_nil (a b : list pystr) :
  (forall w, In w a -> In w b) -> set_diff a b = [].
Proof.
  intros H; destruct (set_diff a b) as [|x l] eqn:E; [reflexivity|exfalso].
  assert (Hx : In x (set_diff a b)) by (rewrite E; left; reflexivity).
  apply set_diff_In in Hx; destruct Hx as [Ha Hb]; exact (Hb (H x Ha)).
Qed.




(** X: with threshold [0], a text is in the language exactly when every
    one of its words, lowered, is a lowered word of the list. *)
Theorem ld_threshold_zero (lower : pystr -> pystr) (words : list pystr)
        (text : pystr) :
  ld_eq lower (ld_init lower words 0) text = true <->
  (forall w, In w (str_split text) -> In (lower w) (map lower words)).
Proof.
  rewrite ld_eq_spec; cbn [vocabulary threshold ld_init Qnum Qden].
  rewrite Z.mul_0_r, Z.mul_1_r; split.
  - intros H w Hw.
    destruct (in_dec str_eq_dec (lower w) (map lower words)) as [Hi|Hn];
      [exact Hi|exfalso].
    assert (Hd : In (lower w) (set_diff (py_set (map lower (str_split text)))
                                        (py_set (map lower words)))).
    { apply set_diff_In; split.
      - unfold py_set; rewrite nodup_In; apply List.in_map, Hw.
      - unfold py_set; rewrite nodup_In; exact Hn. }
    destruct (set_diff _ _); [contradiction|simpl in H; lia].
  - intros H; rewrite set_diff_nil; [simpl; lia|].
    intros w Hw; unfold py_set in *; rewrite nodup_In in *.
    apply in_map_iff in Hw; destruct Hw as [x [<- Hx]]; apply H, Hx.
Qed.

(** X: the verdict depends only on the set of lowered words of the text:
    neither their order nor their repetition matters. *)
Theorem ld_word_set_only (lower : pystr -> pystr) (ld : LanguageDetector)
        (t1 t2 : pystr) :
  (forall w, In w (map lower (str_split t1)) <-> In w (map lower (str_split t2))) ->
  ld_eq lower ld t1 = ld_eq lower ld t2.
Proof.
  intros H.
  assert (L1 : length (py_set (map lower (str_split t1))) =
               length (py_set (map lower (str_split t2)))).
  { apply nodup_length_eq; try apply NoDup_nodup.
    intros x; unfold py_set; rewrite !nodup_In; apply H. }
  assert (L2 : length (set_diff (py_set (map lower (str_split t1))) (vocabulary ld)) =
               length (set_diff (py_set (map lower (str_split t2))) (vocabulary ld))).
  { apply nodup_length_eq; try (apply set_diff_NoDup, NoDup_nodup).
    intros x; rewrite !set_diff_In; unfold py_set; rewrite !nodup_In, H.
    reflexivity. }
  unfold ld_eq; cbv zeta; rewrite L1, L2; reflexivity.
Qed.

(** X: a larger word list never turns a text out of the language. *)
Theorem ld_vocabulary_monotone (lower : pystr -> pystr)
        (words words' : list pystr) (t : Q) (text : pystr) :
  (forall w, In w words -> In w words') ->
  ld_eq lower (ld_init lower words t) text = true ->
  ld_eq lower (ld_init lower words' t) text = true.
Proof.
  intros Hw; rewrite !ld_eq_spec; cbn [vocabulary threshold ld_init].
  assert (L : (length (set_diff (py_set (map lower (str_split text)))
                                (py_set (map lower words'))) <=
               length (set_diff (py_set (map lower (str_split text)))
                                (py_set (map lower words))))%nat).
  { unfold set_diff; apply filter_length_mono; intros x _.
    rewrite !negb_true_iff; intros Hn.
    destruct (str_in x (py_set (map lower words))) eqn:E; [|reflexivity].
    apply str_in_iff in E; unfold py_set in E; rewrite nodup_In in E.
    assert (E' : In x (py_set (map lower words'))).
    { unfold py_set; rewrite nodup_In.
      apply in_map_iff in E; destruct E as [y [<- Hy]].
      apply List.in_map, Hw, Hy. }
    apply str_in_iff in E'; congruence. }
  intros H; eapply Z.le_trans; [|exact H].
  apply Z.mul_le_mono_nonneg_r; lia.
Qed.

(** ** Names from the stream to the consumers *)

Lemma lor_not_newline (k x : Z) : Z.testbit k 7 = true -> Z.lor k x <> newline.
Proof.
  intros H E; apply (f_equal (fun z => Z.testbit z 7)) in E.
  rewrite Z.lor_spec, H in E; discriminate.
Qed.

Lemma Some_inj {A} (a b : A) : Some a = Some b -> a = b.
Proof. intros H; injection H; auto. Qed.

Lemma count_high_bytes (l : bytes) :
  Forall (fun x => Z.testbit x 7 = true) l -> count_occ Z.eq_dec l newline = 0%nat.
Proof.
  induction 1 as [|x l Hx _ IH]; [reflexivity|]; simpl.
  destruct (Z.eq_dec x newline) as [E|_]; [|exact IH].
  subst; discriminate.
Qed.

Lemma utf8_char_newlines (c : Z) (b : bytes) :
  utf8_char c = Some b ->
  count_occ Z.eq_dec b newline = if c =? newline then 1%nat else 0%nat.
Proof.
  unfold utf8_char; intros H.
  destruct (c <? 0) eqn:C0; [discriminate|].
  destruct (c <? 128) eqn:C1.
  - apply Some_inj in H; subst b; simpl.
    destruct (Z.eq_dec c newline), (c =? newline) eqn:E; try reflexivity.
    + apply Z.eqb_neq in E; congruence.
    + apply Z.eqb_eq in E; congruence.
  - assert (Hc : (c =? newline) = false) by (apply Z.eqb_neq; unfold newline; lia).
    rewrite Hc; apply count_high_bytes.
    repeat match type of H with
           | context [if ?b then _ else _] => destruct b
           end; try discriminate; apply Some_inj in H; subst b;
      repeat constructor; rewrite Z.lor_spec; reflexivity.
Qed.

Lemma utf8_encode_newlines (s : pystr) (b : bytes) :
  utf8_encode s = Some b -> count_occ Z.eq_dec b newline = count_occ Z.eq_dec s newline.
Proof.
  revert b; induction s as [|c s IH]; intros b H; simpl in H.
  - injection H as <-; reflexivity.
  - destruct (utf8_char c) as [x|] eqn:Ec; [|discriminate].
    destruct (utf8_encode s) as [r|]; [|discriminate].
    injection H as <-; rewrite count_occ_app, (IH r eq_refl),
      (utf8_char_newlines c x Ec); simpl.
    destruct (Z.eq_dec c newline) as [E|E];
      [subst; rewrite Z.eqb_refl; reflexivity|].
    apply Z.eqb_neq in E; rewrite E; reflexivity.
Qed.

Lemma join_newline (sep : pystr) (ws : list pystr) :
  In newline (join sep ws) -> In newline sep \/ exists w, In w ws /\ In newline w.
Proof.
  induction ws as [|w ws IH]; simpl; [tauto|].
  destruct ws as [|w' ws'].
  - intros H; right; exists w; auto.
  - intros H; apply in_app_or in H; destruct H as [H|H]; [right; exists w; auto|].
    apply in_app_or in H; destruct H as [H|H]; [left; exact H|].
    destruct (IH H) as [S|[v [Hv Hn]]]; [left; exact S|].
    right; exists v; split; [right; exact Hv|exact Hn].
Qed.

(** X: when no word of the [nltk] entities holds a newline, every name
    [on_success] hands to its callback is free of newlines, and once
    framed by [ConnectionHandler.handle_write] it is a single line: exactly
    one ['\n'] byte, at the end. *)
Theorem streamed_names_one_line (lower : pystr -> pystr)
        (nltk_words : list pystr) (ne_pipeline : pystr -> list chunk)
        (data : list (pystr * jval)) (names : list pystr) :
  (forall text l lv w tg, In (Tree l lv) (ne_pipeline text) ->
                          In (w, tg) lv -> ~ In newline w) ->
  on_success lower nltk_words ne_pipeline data = OSCalls names ->
  Forall (fun n => ~ In newline n /\
                   forall b, frame n = Some b ->
                     count_occ Z.eq_dec b newline = 1%nat /\
                     last b 0 = newline) names.
Proof.
  intros Hp; unfold on_success.
  destruct (dict_get key_text data) as [[text|]|];
    [|discriminate|intros H; injection H as <-; constructor].
  destruct (ld_eq lower (english lower nltk_words) text);
    [|intros H; injection H as <-; constructor].
  intros H; injection H as <-.
  apply Forall_forall; intros n Hn.
  apply in_map_iff in Hn; destruct Hn as [c [<- Hc]].
  rewrite !filter_In in Hc; destruct Hc as [[Hc Ht] _].
  destruct c as [w tg|l lv]; [discriminate|].
  assert (Nn : ~ In newline (entity_name (Tree l lv))).
  { simpl; intros Hi; destruct (join_newline _ _ Hi) as [S|[v [Hv Hnv]]].
    - simpl in S; unfold newline in S; destruct S as [S|S]; [discriminate|exact S].
    - apply in_map_iff in Hv; destruct Hv as [[v' tg'] [E Hv]]; simpl in E; subst v'.
      exact (Hp text l lv v tg' Hc Hv Hnv). }
  split; [exact Nn|].
  intros b Hb; unfold frame in Hb; rewrite utf8_encode_app in Hb.
  destruct (utf8_encode (entity_name (Tree l lv))) as [x|] eqn:Ex;
    [|discriminate].
  simpl in Hb; injection Hb as <-.
  rewrite (count_occ_not_In Z.eq_dec) in Nn.
  rewrite count_occ_app, (utf8_encode_newlines _ _ Ex), Nn, last_last.
  simpl; destruct (Z.eq_dec newline newline); [|congruence].
  split; reflexivity.
Qed.

(** ** Names through the relay *)

Lemma keeps_newlines {A} (m : M A) (s : Sys) :
  keeps m -> stream_newlines (snd (m s)) = stream_newlines s.
Proof. intros H; unfold stream_newlines; rewrite (proj2 (H s)); reflexivity. Qed.

Lemma keeps_scan_loop (fuel i : nat) : keeps (scan_loop fuel i).
Proof.
  induction fuel as [|fuel IH]; simpl; [apply keeps_ret|].
  unfold collect_incoming_data, found_terminator; keeps_tac.
Qed.

Lemma keeps_handle_read (i : nat) (r : recv_res) : keeps (handle_read i r).
Proof.
  unfold handle_read, recv, absorb.
  apply keeps_bind; [destruct r; keeps_tac; apply keeps_handle_close|].
  intros [d|[|e]]; [| apply keeps_ret | apply keeps_handle_close].
  apply keeps_bind; [apply keeps_get_conn|intros c].
  apply keeps_bind; [apply keeps_set_in_buf|intros; apply keeps_scan_loop].
Qed.

Lemma dispatch_snd (i : nat) (m : M unit) (s s' : Sys) :
  dispatch i m s = Some s' ->
  queue s' = queue (snd (m s)) /\ streams s' = streams (snd (m s)).
Proof.
  unfold dispatch; destruct (m s) as [[u|e] s1]; simpl.
  - intros H; injection H as <-; auto.
  - pose proof (keeps_handle_close i s1) as [Q S]; unfold handle_error.
    destruct (handle_close i s1) as [[u|e'] s2]; simpl in *; [|discriminate].
    intros H; injection H as <-; auto.
Qed.

Lemma newlines_append_fifo (s : Sys) (i : nat) (c : Conn) (b : bytes) :
  nth_error (conns s) i = Some c ->
  stream_newlines (snd (modify_conn i (append_fifo b) s)) =
  (stream_newlines s + count_occ Z.eq_dec b newline)%nat.
Proof.
  unfold stream_newlines, streams; cbn [snd modify_conn conns].
  generalize (conns s) as l; intros l; revert i.
  induction l as [|c' l IH]; intros [|i] H; simpl in H; try discriminate.
  - simpl; rewrite !count_occ_app; lia.
  - simpl; rewrite (IH i H); lia.
Qed.

Lemma frame_clean_newlines (x : pystr) (b : bytes) :
  ~ In newline x -> frame x = Some b -> count_occ Z.eq_dec b newline = 1%nat.
Proof.
  intros Hx Hb; unfold frame in Hb.
  rewrite (utf8_encode_newlines _ _ Hb), count_occ_app,
    (proj1 (count_occ_not_In _ _ _) Hx); simpl.
  destruct (Z.eq_dec newline newline); [reflexivity|congruence].
Qed.

Lemma handle_write_conserves (s : Sys) (i : nat) (c : Conn) (o1 o2 : send_res) :
  nth_error (conns s) i = Some c -> Forall clean_item (queue s) ->
  let s1 := snd (handle_write i o1 o2 s) in
  Forall clean_item (queue s1) /\
  (stream_newlines s1 + length (queue s1) =
   stream_newlines s + length (queue s))%nat.
Proof.
  intros Hn Hq; cbv zeta.
  destruct (queue s) as [|x q] eqn:Eq.
  - rewrite (handle_write_empty s i o1 o2 Eq).
    pose proof (keeps_initiate_send i o2 s) as [Q _].
    rewrite (keeps_newlines _ _ (keeps_initiate_send i o2)), Q, Eq; auto.
  - rewrite (handle_write_item s i o1 o2 x q Eq).
    inversion Hq as [|x' q' [Hx [b Hb]] Hq' E]; subst x' q'.
    rewrite Hb.
    set (s2 := snd (modify_conn i (append_fifo b) (set_queue q s))).
    pose proof (keeps_two_sends i o1 o2 s2) as [Q _].
    rewrite (keeps_newlines _ _ (keeps_two_sends i o1 o2)), Q.
    assert (Q2 : queue s2 = q) by reflexivity.
    rewrite Q2; split; [exact Hq'|].
    unfold s2; rewrite (newlines_append_fifo (set_queue q s) i c b Hn),
      (frame_clean_newlines x b Hx Hb).
    unfold stream_newlines, streams; simpl; lia.
Qed.

Lemma handle_accept_conserves (a : accept_res) (s : Sys) :
  queue (snd (handle_accept a s)) = queue s /\
  stream_newlines (snd (handle_accept a s)) = stream_newlines s.
Proof.
  destruct a as [|peer_ok]; [auto|].
  cbv [handle_accept bind accept_sock get_count ret add_handler]; cbn [fst snd].
  cbn [count]; destruct (count s <? MAXCONN); cbn [snd queue conns]; [|auto].
  split; [reflexivity|].
  unfold stream_newlines, streams, set_count; cbn [conns].
  rewrite !map_app, list_sum_app; simpl; lia.
Qed.

(** X: no name is lost or duplicated inside the relay.  While the queue
    holds only items that frame to one line, an event leaves the sum of the
    names queued and the names handed to the consumers' connections (sent
    or still buffered) unchanged, except a producer [put] that finds room,
    which adds one; the queue keeps holding such items. *)
Theorem step_conserves_names (e : event) (s s' : Sys) :
  Forall clean_item (queue s) ->
  (forall x, e = EvPut x -> clean_item x) ->
  step e s = Some s' ->
  Forall clean_item (queue s') /\
  (stream_newlines s' + length (queue s') =
   stream_newlines s + length (queue s) +
   match e with
   | EvPut _ => if (length (queue s) <? QUEUE_MAXSIZE)%nat then 1 else 0
   | _ => 0
   end)%nat.
Proof.
  intros Hq Hput; destruct e as [a|i r|i o1 o2|x]; simpl.
  - destruct (handle_accept_conserves a s) as [Q N].
    destruct (handle_accept a s) as [[u|ex] s1]; simpl in *; [|discriminate].
    intros H; injection H as <-; rewrite Q, N; split; [exact Hq|lia].
  - destruct (nth_error (conns s) i) as [c|];
      [|intros H; injection H as <-; split; [exact Hq|lia]].
    destruct (in_map c); [|intros H; injection H as <-; split; [exact Hq|lia]].
    intros H; destruct (dispatch_snd _ _ _ _ H) as [Q S].
    pose proof (keeps_handle_read i r s) as [Q1 S1].
    unfold stream_newlines; rewrite Q, S, Q1, S1; split; [exact Hq|lia].
  - destruct (nth_error (conns s) i) as [c|] eqn:Hn;
      [|intros H; injection H as <-; split; [exact Hq|lia]].
    destruct (in_map c && writable (queue s) c);
      [|intros H; injection H as <-; split; [exact Hq|lia]].
    intros H; destruct (dispatch_snd _ _ _ _ H) as [Q S].
    destruct (handle_write_conserves s i c o1 o2 Hn Hq) as [C N].
    unfold stream_newlines in *; rewrite Q, S; split; [exact C|lia].
  - unfold q_put; destruct (length (queue s) <? QUEUE_MAXSIZE)%nat;
      intros H; injection H as <-; cbn [queue set_queue].
    + split; [apply Forall_app; split; [exact Hq|constructor; [apply Hput; reflexivity|constructor]]|].
      rewrite length_app; unfold stream_newlines, streams, set_queue; simpl; lia.
    + split; [exact Hq|lia].
Qed.

(** ** Reading the credentials *)

Lemma find_char_none (c : Z) (s : pystr) : ~ In c s -> find_char c s = None.
Proof.
  induction s as [|x s IH]; intros H; [reflexivity|]; simpl.
  destruct (x =? c) eqn:E; [apply Z.eqb_eq in E; subst; exfalso; apply H; left; reflexivity|].
  rewrite IH; [reflexivity|intros Hi; apply H; right; exact Hi].
Qed.

Lemma find_char_split (c : Z) (pre post : pystr) :
  ~ In c pre -> find_char c (pre ++ c :: post) = Some (length pre).
Proof.
  induction pre as [|x pre IH]; intros H; simpl; [rewrite Z.eqb_refl; reflexivity|].
  destruct (x =? c) eqn:E; [apply Z.eqb_eq in E; subst; exfalso; apply H; left; reflexivity|].
  rewrite IH; [reflexivity|intros Hi; apply H; right; exact Hi].
Qed.

Lemma before_get_loop (lower : pystr -> pystr) (sec defs : list (pystr * pystr))
      (v : pystr) :
  before_get lower sec defs v =
  interp_loop lower sec defs (interpolate_some lower sec defs 10 2)
              (S (length v)) v.
Proof. reflexivity. Qed.

Lemma before_get_plain (lower : pystr -> pystr) (sec defs : list (pystr * pystr))
      (v : pystr) :
  ~ In pct v -> before_get lower sec defs v = inl v.
Proof.
  intros H; rewrite before_get_loop.
  destruct v as [|x v']; [reflexivity|]; cbn [interp_loop is_nil].
  rewrite (find_char_none _ _ H); reflexivity.
Qed.


Lemma get_keys_present (lower : pystr -> pystr) (cp : ConfigParser)
      (sec : list (pystr * pystr)) (keys : list pystr) :
  (forall k, In k keys -> lower k = k /\
     exists v, chain_get k sec (cp_defaults cp) = Some v /\ ~ In pct v) ->
  exists vs, get_keys lower cp sec keys = inl vs /\
    Forall2 (fun k v => chain_get k sec (cp_defaults cp) = Some v) keys vs.
Proof.
  induction keys as [|k ks IH]; intros H; [exists []; auto|].
  destruct (H k (or_introl eq_refl)) as [Hl (v & Hv & Np)].
  destruct IH as (vs & E & F); [intros k' Hk'; apply H; right; exact Hk'|].
  exists (v :: vs); cbn [get_keys]; unfold proxy_get;
    rewrite Hl, Hv, before_get_plain, E by exact Np; auto.
Qed.

Lemma get_keys_missing (lower : pystr -> pystr) (cp : ConfigParser)
      (sec : list (pystr * pystr)) (keys : list pystr) :
  (forall k, In k keys -> lower k = k) ->
  (forall k v, In k keys -> chain_get k sec (cp_defaults cp) = Some v ->
               ~ In pct v) ->
  (exists k, In k keys /\ chain_get k sec (cp_defaults cp) = None) ->
  get_keys lower cp sec keys = inr CfgKeyError.
Proof.
  induction keys as [|k ks IH]; intros Hl Hv (k' & Hk' & Hm); [destruct Hk'|].
  cbn [get_keys]; unfold proxy_get; rewrite (Hl k (or_introl eq_refl)).
  destruct (chain_get k sec (cp_defaults cp)) as [v|] eqn:Ev; [|reflexivity].
  rewrite before_get_plain by exact (Hv k v (or_introl eq_refl) Ev).
  destruct Hk' as [<-|Hk']; [congruence|].
  rewrite IH; [reflexivity| | |exists k'; auto].
  - intros x Hx; apply Hl; right; exact Hx.
  - intros x w Hx; apply Hv; right; exact Hx.
Qed.


(** X: when the section ['app'] exists and each of the four [TWKEYS] has a
    value without ['%'] in it or in [DEFAULT], the [__main__] block of
    [namestream.py] streams with these values, in [TWKEYS] order, a
    section's value taking precedence over [DEFAULT]. *)
Theorem main_reads_credentials (lower : pystr -> pystr) (cp : ConfigParser)
        (sec : list (pystr * pystr)) :
  (forall k, In k TWKEYS -> lower k = k) ->
  assoc sect_app (cp_sections cp) = Some sec ->
  (forall k, In k TWKEYS ->
     exists v, chain_get k sec (cp_defaults cp) = Some v /\ ~ In pct v) ->
  exists vs, namestream_main lower cp = StreamWith vs /\
    Forall2 (fun k v => chain_get k sec (cp_defaults cp) = Some v) TWKEYS vs.
Proof.
  intros Hl Hs Hv.
  destruct (get_keys_present lower cp sec TWKEYS) as (vs & E & F).
  - intros k Hk; split; [apply Hl, Hk|apply Hv, Hk].
  - exists vs; unfold namestream_main, read_creds; rewrite Hs, E; auto.
Qed.

(** X: a missing section ['app'], or a missing key (with the values
    present free of ['%']), is caught as a [KeyError] and only logged. *)
Theorem main_missing_key_logged (lower : pystr -> pystr) (cp : ConfigParser) :
  (forall k, In k TWKEYS -> lower k = k) ->
  (assoc sect_app (cp_sections cp) = None \/
   exists sec, assoc sect_app (cp_sections cp) = Some sec /\
     (forall k v, In k TWKEYS -> chain_get k sec (cp_defaults cp) = Some v ->
                  ~ In pct v) /\
     exists k, In k TWKEYS /\ chain_get k sec (cp_defaults cp) = None) ->
  namestream_main lower cp = LogInvalid.
Proof.
  intros Hl [Hn|(sec & Hs & Hv & Hm)]; unfold namestream_main, read_creds.
  - rewrite Hn; reflexivity.
  - rewrite Hs, get_keys_missing; auto.
Qed.


Lemma pct_split (v : pystr) :
  ~ In pct v \/ exists pre post, v = pre ++ pct :: post /\ ~ In pct pre.
Proof.
  induction v as [|x v IH]; [left; intros []|].
  destruct (Z.eq_dec x pct) as [->|Hx].
  - right; exists [], v; split; [reflexivity|intros []].
  - destruct IH as [N|(pre & post & -> & Np)].
    + left; intros [E|E]; [congruence|contradiction].
    + right; exists (x :: pre), post; split; [reflexivity|].
      intros [E|E]; [congruence|contradiction].
Qed.

Lemma config_escape_plain (v : pystr) : ~ In pct v -> config_escape v = v.
Proof.
  induction v as [|x v IH]; intros H; [reflexivity|]; simpl.
  destruct (x =? pct) eqn:E; [apply Z.eqb_eq in E; subst; exfalso; apply H; left; reflexivity|].
  simpl; f_equal; apply IH; intros Hi; apply H; right; exact Hi.
Qed.

Lemma interp_loop_escape (lower : pystr -> pystr) (sec defs : list (pystr * pystr))
      (rec : pystr -> pystr + cfg_exn) (n : nat) :
  forall v fuel, (length v <= n)%nat -> (length (config_escape v) < fuel)%nat ->
  interp_loop lower sec defs rec fuel (config_escape v) = inl v.
Proof.
  induction n as [|n IH]; intros v fuel Hn Hf.
  - destruct v; [|simpl in Hn; lia].
    destruct fuel; [simpl in Hf; lia|reflexivity].
  - destruct fuel as [|f]; [lia|].
    destruct (pct_split v) as [Np|(pre & post & -> & Np)].
    + rewrite (config_escape_plain _ Np).
      destruct v as [|x v']; [reflexivity|]; cbn [interp_loop is_nil].
      rewrite (find_char_none _ _ Np); reflexivity.
    + assert (Ee : config_escape (pre ++ pct :: post) =
                   pre ++ pct :: pct :: config_escape post).
      { unfold config_escape; rewrite flat_map_app; simpl.
        fold (config_escape pre) (config_escape post).
        rewrite (config_escape_plain _ Np); reflexivity. }
      rewrite Ee in *; cbn [interp_loop].
      destruct (is_nil (pre ++ pct :: pct :: config_escape post)) eqn:En;
        [destruct pre; discriminate|].
      rewrite (find_char_split _ _ _ Np), firstn_app, Nat.sub_diag, firstn_all,
        skipn_app, Nat.sub_diag, skipn_all; cbn [firstn skipn app].
      destruct (str_eq_dec [pct] [pct]) as [_|C]; [|congruence].
      rewrite IH.
      * simpl; rewrite app_nil_r, <- app_assoc; reflexivity.
      * rewrite length_app in Hn; simpl in Hn; lia.
      * rewrite length_app in Hf; simpl in Hf; lia.
Qed.

(** X: a configuration value written with every ['%'] doubled reads back,
    through [BasicInterpolation], as the original text. *)
Theorem before_get_escape (lower : pystr -> pystr)
        (sec defs : list (pystr * pystr)) (v : pystr) :
  before_get lower sec defs (config_escape v) = inl v.
Proof.
  rewrite before_get_loop.
  apply (interp_loop_escape lower sec defs _ (length v)); lia.
Qed.

(** ** Witnesses of the properties above *)





Lemma ld_word_set_only_witness :
  let lower := map (fun c => if (65 <=? c) && (c <=? 90) then c + 32 else c) in
  ld_eq lower (ld_init lower [[104; 105]; [121; 111]] (1 # 2))
        [72; 105; 32; 104; 105; 32; 72; 73; 32; 113] =
  ld_eq lower (ld_init lower [[104; 105]; [121; 111]] (1 # 2)) [113; 32; 104; 105].
Proof.
  intros lower; apply ld_word_set_only.
  intros w; vm_compute; tauto.
Defined.

Lemma ld_vocabulary_monotone_witness :
  ld_eq (fun s => s) (ld_init (fun s => s) [[104; 105]; [122; 122]] (1 # 2))
        [104; 105; 32; 122; 122] = true.
Proof.
  apply (ld_vocabulary_monotone (fun s => s) [[104; 105]]).
  - intros w [<-|[]]; simpl; auto.
  - vm_compute; reflexivity.
Defined.

Lemma streamed_names_one_line_witness :
  let pipeline := fun _ : pystr =>
    [Tree label_person [([65; 100; 97], [78; 78; 80]);
                        ([76; 111; 118; 101], [78; 78; 80])];
     Leaf [105; 115] [86; 66; 90]] in
  Forall (fun n => ~ In newline n /\
                   forall b, frame n = Some b ->
                     count_occ Z.eq_dec b newline = 1%nat /\
                     last b 0 = newline)
         [[65; 100; 97; 32; 76; 111; 118; 101]].
Proof.
  intros pipeline.
  apply (streamed_names_one_line (fun s => s)
           [[65; 100; 97]; [76; 111; 118; 101]; [105; 115]] pipeline
           [(key_text, JStr [65; 100; 97; 32; 76; 111; 118; 101; 32; 105; 115])]).
  - intros text l lv w tg Hc Hw; simpl in Hc.
    destruct Hc as [Hc|[Hc|[]]]; [|discriminate].
    injection Hc as <- <-; simpl in Hw.
    destruct Hw as [Hw|[Hw|[]]]; injection Hw as <- <-; simpl; intuition discriminate.
  - vm_compute; reflexivity.
Defined.

Lemma step_conserves_names_witness :
  let s0 := mkSys 1 [[65]] [mkConn true true [] [] [] 0 0] 1 [] in
  let s1 := mkSys 1 [] [mkConn true true [] [65; 10] [] 0 0] 1 [] in
  Forall clean_item (queue s1) /\
  (stream_newlines s1 + length (queue s1) =
   stream_newlines s0 + length (queue s0) + 0)%nat.
Proof.
  intros s0 s1.
  apply (step_conserves_names (EvWrite 0 (SendOk 2) (SendOk 0)) s0 s1).
  - constructor; [|constructor].
    split; [intros [E|[]]; discriminate|eexists; reflexivity].
  - intros x E; discriminate.
  - vm_compute; reflexivity.
Defined.

Lemma main_reads_credentials_witness :
  exists vs,
    namestream_main (fun s => s)
      (mkCP [(nth 1 TWKEYS [], [115])]
            [(sect_app, [(nth 0 TWKEYS [], [107]); (nth 2 TWKEYS [], [116]);
                         (nth 3 TWKEYS [], [117])])]) = StreamWith vs /\
    Forall2 (fun k v => chain_get k [(nth 0 TWKEYS [], [107]); (nth 2 TWKEYS [], [116]);
                                     (nth 3 TWKEYS [], [117])]
                          [(nth 1 TWKEYS [], [115])] = Some v) TWKEYS vs.
Proof.
  apply main_reads_credentials.
  - intros k _; reflexivity.
  - reflexivity.
  - intros k Hk; simpl in Hk; destruct Hk as [<-|[<-|[<-|[<-|[]]]]];
      eexists; (split; [reflexivity|]); simpl; intuition discriminate.
Defined.

Lemma main_missing_key_logged_witness :
  namestream_main (fun s => s)
    (mkCP [] [(sect_app, [(nth 0 TWKEYS [], [107]); (nth 1 TWKEYS [], [115]);
                          (nth 2 TWKEYS [], [116])])]) = LogInvalid.
Proof.
  apply main_missing_key_logged; [intros k _; reflexivity|].
  right; eexists; split; [reflexivity|]; split.
  - intros k v Hk; simpl in Hk; destruct Hk as [<-|[<-|[<-|[<-|[]]]]];
      vm_compute; intros E; try discriminate; injection E as <-;
      intuition discriminate.
  - exists (nth 3 TWKEYS []); split; [simpl; auto|reflexivity].
Defined.


(** ** What [ac_in_buffer] holds between events *)

Lemma prefixb_app (p h : bytes) : prefixb p h = true -> exists r, h = p ++ r.
Proof.
  revert h; induction p as [|x p IH]; intros [|y h] H; cbn [prefixb] in H.
  - exists []; reflexivity.
  - exists (y :: h); reflexivity.
  - discriminate.
  - apply andb_prop in H; destruct H as [E H]; apply Z.eqb_eq in E; subst y.
    destruct (IH h H) as [r ->]; exists r; reflexivity.
Qed.

Lemma prefixb_length (p h : bytes) : prefixb p h = true -> (length p <= length h)%nat.
Proof.
  intros H; destruct (prefixb_app p h H) as [r ->]; rewrite length_app; lia.
Qed.

Lemma endswith_app (h t : bytes) : endswith h t = true -> exists r, h = r ++ t.
Proof.
  unfold endswith; intros H; destruct (prefixb_app _ _ H) as [r E].
  exists (rev r); rewrite <- (rev_involutive h), E, rev_app_distr, rev_involutive.
  reflexivity.
Qed.

Lemma find_sub_bound (h n : bytes) (idx : nat) :
  find_sub h n = Some idx -> (idx + length n <= length h)%nat.
Proof.
  revert idx; induction h as [|y h IH]; intros idx H; cbn [find_sub] in H;
    destruct (prefixb n _) eqn:P.
  - injection H as <-; apply prefixb_length in P; lia.
  - discriminate.
  - injection H as <-; apply prefixb_length in P; lia.
  - destruct (find_sub h n) as [j|]; cbn [option_map] in H; [|discriminate].
    injection H as <-; specialize (IH j eq_refl); cbn [length]; lia.
Qed.

Lemma fpae_loop_spec (h n : bytes) (l : nat) :
  (fpae_loop h n l <= l)%nat /\
  (fpae_loop h n l = 0%nat \/ endswith h (firstn (fpae_loop h n l) n) = true).
Proof.
  induction l as [|l IH]; cbn [fpae_loop]; [auto|].
  destruct (endswith h (firstn (S l) n)) eqn:E; [auto|].
  destruct IH as [IH1 IH2]; split; [lia|exact IH2].
Qed.

Lemma upd_same_in_buf (l : list Conn) (i : nat) (c : Conn) :
  nth_error l i = Some c -> upd i (set_in_buf (in_buf c)) l = l.
Proof.
  revert i; induction l as [|x l IH]; intros [|i] H; cbn [nth_error] in H;
    try discriminate.
  - injection H as <-; destruct x; reflexivity.
  - cbn [upd]; rewrite (IH i H); reflexivity.
Qed.

Lemma map_upd_ext {A B} (g : A -> B) (i : nat) (f f' : A -> A) (l : list A) :
  (forall x, g (f x) = g (f' x)) -> map g (upd i f l) = map g (upd i f' l).
Proof.
  intros Hg; revert i; induction l as [|x l IH]; intros [|i]; cbn [upd map];
    rewrite ?Hg, ?IH; reflexivity.
Qed.

Lemma Forall_map_upd {A B} (P : B -> Prop) (g : A -> B) (i : nat) (f : A -> A)
  (l : list A) :
  Forall P (map g l) -> (forall x, P (g (f x))) -> Forall P (map g (upd i f l)).
Proof.
  intros H Hf; revert i; induction l as [|x l IH]; intros [|i]; cbn [upd map];
    inversion H; subst; constructor; auto.
Qed.

(** One run of the [while self.ac_in_buffer:] loop with enough rounds
    leaves in the buffer of handler [i] a proper prefix of the terminator
    and changes no other buffer. *)
Lemma scan_loop_in_buf (fuel i : nat) (s : Sys) (c : Conn) :
  nth_error (conns s) i = Some c -> (length (in_buf c) < fuel)%nat ->
  exists b, term_prefix b /\
    map in_buf (conns (snd (scan_loop fuel i s))) =
    map in_buf (upd i (set_in_buf b) (conns s)).
Proof.
  revert s c; induction fuel as [|f IH]; intros s c Hn Hl; [lia|].
  cbn [scan_loop]; cbv [bind get_conn ret collect_incoming_data found_terminator].
  rewrite Hn.
  destruct (is_nil (in_buf c)) eqn:E0.
  { exists []; split; [exists 0%nat; split; [cbn; lia|reflexivity]|].
    destruct (in_buf c) eqn:B; [|discriminate].
    rewrite <- B, (upd_same_in_buf _ _ _ Hn); reflexivity. }
  destruct (find_sub (in_buf c) handler_terminator) as [idx|] eqn:E1.
  - pose proof (find_sub_bound _ _ _ E1) as Bd.
    set (s1 := snd (modify_conn i (set_in_buf (skipn (idx + length handler_terminator)
                                                  (in_buf c))) s)).
    assert (Hn1 : nth_error (conns s1) i =
                  Some (set_in_buf (skipn (idx + length handler_terminator) (in_buf c)) c))
      by (unfold s1; rewrite nth_modify, Hn; reflexivity).
    assert (Hl1 : (length (in_buf (set_in_buf (skipn (idx + length handler_terminator)
                                                  (in_buf c)) c)) < f)%nat).
    { cbn [in_buf set_in_buf]; rewrite length_skipn.
      change (length handler_terminator) with 4%nat in *; lia. }
    destruct (IH s1 _ Hn1 Hl1) as [b [Hb E]].
    exists b; split; [exact Hb|].
    destruct (0 <? idx)%nat; cbv [modify_conn] in *; cbn [conns snd] in *;
      unfold s1 in E; cbn [conns snd] in E; rewrite E, upd_upd;
      apply map_upd_ext; reflexivity.
  - pose proof (fpae_loop_spec (in_buf c) handler_terminator 3) as [K1 K2].
    unfold find_prefix_at_end.
    change (length handler_terminator - 1)%nat with 3%nat.
    set (k := fpae_loop (in_buf c) handler_terminator 3) in *.
    destruct (k =? 0)%nat eqn:Ek.
    + destruct f as [|f'].
      * exists []; split; [exists 0%nat; split; [cbn; lia|reflexivity]|].
        cbn [scan_loop]; cbv [ret modify_conn]; cbn [conns snd].
        apply map_upd_ext; reflexivity.
      * set (s1 := snd (modify_conn i (set_in_buf []) s)).
        assert (Hn1 : nth_error (conns s1) i = Some (set_in_buf [] c))
          by (unfold s1; rewrite nth_modify, Hn; reflexivity).
        destruct (IH s1 _ Hn1 ltac:(cbn; lia)) as [b [Hb E]].
        exists b; split; [exact Hb|].
        cbv [modify_conn] in *; cbn [conns snd] in *;
          unfold s1 in E; cbn [conns snd] in E; rewrite E, upd_upd;
          apply map_upd_ext; reflexivity.
    + apply Nat.eqb_neq in Ek.
      destruct K2 as [K2|K2]; [contradiction|].
      destruct (endswith_app _ _ K2) as [r Er].
      assert (Lt : length (firstn k handler_terminator) = k)
        by (rewrite length_firstn; change (length handler_terminator) with 4%nat; lia).
      exists (firstn k handler_terminator); split;
        [exists k; split; [change (length handler_terminator) with 4%nat; lia|reflexivity]|].
      destruct (k =? length (in_buf c))%nat eqn:Ek2.
      * apply Nat.eqb_eq in Ek2.
        assert (r = []) as ->.
        { destruct r as [|y r]; [reflexivity|].
          apply (f_equal (@length Z)) in Er; rewrite length_app, Lt in Er.
          cbn [length] in Er; lia. }
        cbn [app] in Er; rewrite <- Er, (upd_same_in_buf _ _ _ Hn); reflexivity.
      * cbv [modify_conn]; cbn [conns snd].
        apply map_upd_ext; intros x; cbn [in_buf set_in_buf].
        rewrite Er, length_app, Lt, Nat.add_sub, skipn_app, skipn_all,
          Nat.sub_diag; reflexivity.
Qed.

Definition keeps_bufs {A} (m : M A) : Prop :=
  forall s, map in_buf (conns (snd (m s))) = map in_buf (conns s).

Lemma keeps_bufs_ret {A} (a : A) : keeps_bufs (ret a).
Proof. intros s; reflexivity. Qed.

Lemma keeps_bufs_raise {A} (e : exn) : keeps_bufs (@raise A e).
Proof. intros s; reflexivity. Qed.

Lemma keeps_bufs_bind {A B} (m : M A) (k : A -> M B) :
  keeps_bufs m -> (forall a, keeps_bufs (k a)) -> keeps_bufs (bind m k).
Proof.
  intros Hm Hk s; unfold bind; specialize (Hm s).
  destruct (m s) as [[a|e] s'] eqn:E; cbn [snd] in *; [|exact Hm].
  rewrite Hk; exact Hm.
Qed.

Lemma keeps_bufs_catch {A} (m : M A) (h : exn -> M A) :
  keeps_bufs m -> (forall e, keeps_bufs (h e)) -> keeps_bufs (catch m h).
Proof.
  intros Hm Hh s; unfold catch; specialize (Hm s).
  destruct (m s) as [[a|e] s'] eqn:E; cbn [snd] in *; [exact Hm|].
  rewrite Hh; exact Hm.
Qed.

Lemma keeps_bufs_get_conn (i : nat) : keeps_bufs (get_conn i).
Proof. intros s; unfold get_conn; destruct (nth_error (conns s) i); reflexivity. Qed.

Lemma keeps_bufs_modify (i : nat) (f : Conn -> Conn) :
  (forall c, in_buf (f c) = in_buf c) -> keeps_bufs (modify_conn i f).
Proof. intros Hf s; apply map_upd_same; exact Hf. Qed.

Lemma keeps_bufs_note_closed (k : nat) : keeps_bufs (note_closed k).
Proof. intros s; reflexivity. Qed.

Lemma keeps_bufs_unregister : keeps_bufs unregister.
Proof. intros s; unfold unregister; destruct (count s <=? 0); reflexivity. Qed.

Lemma keeps_bufs_queue_get0 : keeps_bufs queue_get0.
Proof.
  intros s; unfold queue_get0; destruct (q_get_nowait (queue s)) as [[x q]|];
    reflexivity.
Qed.

Lemma keeps_bufs_incr_unregs (i : nat) : keeps_bufs (modify_conn i incr_unregs).
Proof. apply keeps_bufs_modify; reflexivity. Qed.

Lemma keeps_bufs_mark_closed (i : nat) : keeps_bufs (modify_conn i mark_closed).
Proof. apply keeps_bufs_modify; reflexivity. Qed.

Lemma keeps_bufs_move_sent (i n : nat) : keeps_bufs (modify_conn i (move_sent n)).
Proof. apply keeps_bufs_modify; reflexivity. Qed.

Lemma keeps_bufs_append_fifo (i : nat) (d : bytes) :
  keeps_bufs (modify_conn i (append_fifo d)).
Proof. apply keeps_bufs_modify; reflexivity. Qed.

Create HintDb bufs_db.
#[local] Hint Resolve keeps_bufs_ret keeps_bufs_raise keeps_bufs_get_conn
  keeps_bufs_note_closed keeps_bufs_unregister keeps_bufs_queue_get0
  keeps_bufs_incr_unregs keeps_bufs_mark_closed keeps_bufs_move_sent
  keeps_bufs_append_fifo : bufs_db.

Ltac bufs_tac :=
  repeat first
    [ apply keeps_bufs_bind; intros
    | apply keeps_bufs_catch; intros
    | progress (auto with bufs_db)
    | match goal with
      | |- keeps_bufs (match ?x with _ => _ end) => destruct x
      | |- keeps_bufs (if ?b then _ else _) => destruct b
      end ].

Lemma keeps_bufs_handle_close (i : nat) : keeps_bufs (handle_close i).
Proof. unfold handle_close, close; bufs_tac. Qed.

Lemma keeps_bufs_send (i : nat) (o : send_res) : keeps_bufs (send i o).
Proof. unfold send; destruct o; bufs_tac; apply keeps_bufs_handle_close. Qed.

Lemma keeps_bufs_initiate_send (i : nat) (o : send_res) :
  keeps_bufs (initiate_send i o).
Proof.
  unfold initiate_send; bufs_tac;
    first [apply keeps_bufs_send | apply keeps_bufs_handle_close].
Qed.

#[local] Hint Resolve keeps_bufs_initiate_send : bufs_db.

Lemma keeps_bufs_handle_write (i : nat) (o1 o2 : send_res) :
  keeps_bufs (handle_write i o1 o2).
Proof.
  unfold handle_write, push.
  apply keeps_bufs_bind.
  - apply keeps_bufs_catch;
      [apply keeps_bufs_bind; [apply keeps_bufs_queue_get0|intros; apply keeps_bufs_ret]|].
    intros []; first [apply keeps_bufs_ret | apply keeps_bufs_raise].
  - intros r; apply keeps_bufs_bind; [|intros; apply keeps_bufs_initiate_send].
    destruct r as [item|]; [|apply keeps_bufs_ret].
    destruct (frame item) as [b|]; [|apply keeps_bufs_raise].
    apply keeps_bufs_bind; [apply keeps_bufs_append_fifo|intros; apply keeps_bufs_initiate_send].
Qed.

Definition pres {A} (m : M A) : Prop :=
  forall s, inbufs_ok s -> inbufs_ok (snd (m s)).

Lemma pres_keeps_bufs {A} (m : M A) : keeps_bufs m -> pres m.
Proof. intros H s Hs; unfold inbufs_ok; rewrite H; exact Hs. Qed.

Lemma pres_bind {A B} (m : M A) (k : A -> M B) :
  pres m -> (forall a, pres (k a)) -> pres (bind m k).
Proof.
  intros Hm Hk s Hs; unfold bind; specialize (Hm s Hs).
  destruct (m s) as [[a|e] s'] eqn:E; cbn [snd] in *; [apply Hk|]; exact Hm.
Qed.

Lemma pres_absorb (i : nat) (data : bytes) : pres (absorb i data).
Proof.
  intros s Hs; unfold absorb; cbv [bind get_conn].
  destruct (nth_error (conns s) i) as [c|] eqn:Hn; [|exact Hs].
  set (x := in_buf c ++ data).
  set (s1 := snd (modify_conn i (set_in_buf x) s)).
  assert (Hn1 : nth_error (conns s1) i = Some (set_in_buf x c))
    by (unfold s1; rewrite nth_modify, Hn; reflexivity).
  destruct (scan_loop_in_buf (S (length x)) i s1 _ Hn1 ltac:(cbn; lia))
    as [b [Hb E]].
  change (modify_conn i (set_in_buf x) s) with (inl tt : unit + exn, s1).
  cbv iota beta; unfold inbufs_ok; rewrite E.
  unfold s1; cbv [modify_conn]; cbn [conns snd]; rewrite upd_upd.
  apply Forall_map_upd; [exact Hs|intros y; exact Hb].
Qed.

Lemma pres_handle_read (i : nat) (r : recv_res) : pres (handle_read i r).
Proof.
  unfold handle_read; apply pres_bind.
  - apply pres_keeps_bufs; unfold recv; destruct r; bufs_tac;
      apply keeps_bufs_handle_close.
  - intros [d|[|e]]; [apply pres_absorb| |];
      apply pres_keeps_bufs; [apply keeps_bufs_ret|apply keeps_bufs_handle_close].
Qed.

Lemma pres_dispatch (i : nat) (m : M unit) (s s' : Sys) :
  pres m -> inbufs_ok s -> dispatch i m s = Some s' -> inbufs_ok s'.
Proof.
  intros Hm Hs; unfold dispatch; specialize (Hm s Hs).
  destruct (m s) as [[u|e] s1]; cbn [snd] in Hm.
  - intros H; injection H as <-; exact Hm.
  - pose proof (pres_keeps_bufs _ (keeps_bufs_handle_close i) s1 Hm) as H1.
    unfold handle_error; destruct (handle_close i s1) as [[u|e'] s2];
      [|discriminate]; intros H; injection H as <-; exact H1.
Qed.

Lemma step_inbufs_ok (e : event) (s s' : Sys) :
  inbufs_ok s -> step e s = Some s' -> inbufs_ok s'.
Proof.
  intros Hs; destruct e as [a|i r|i o1 o2|x]; cbn [step].
  - destruct a as [|peer_ok].
    + intros H; injection H as <-; exact Hs.
    + cbv [handle_accept bind accept_sock get_count ret add_handler]; cbn [fst snd].
      cbn [count]; destruct (count s <? MAXCONN); intros H; injection H as <-;
        unfold inbufs_ok; cbn [conns set_count]; [|exact Hs].
      rewrite map_app; apply Forall_app; split; [exact Hs|].
      constructor; [exists 0%nat; split; [cbn; lia|reflexivity]|constructor].
  - destruct (nth_error (conns s) i) as [c|]; [|intros H; injection H as <-; exact Hs].
    destruct (in_map c); [|intros H; injection H as <-; exact Hs].
    apply pres_dispatch; [apply pres_handle_read|exact Hs].
  - destruct (nth_error (conns s) i) as [c|]; [|intros H; injection H as <-; exact Hs].
    destruct (in_map c && writable (queue s) c);
      [|intros H; injection H as <-; exact Hs].
    apply pres_dispatch;
      [apply pres_keeps_bufs, keeps_bufs_handle_write|exact Hs].
  - destruct (q_put x (queue s)); intros H; injection H as <-; exact Hs.
Qed.

(** X: the relay never keeps more of a consumer's input than part of one
    terminator.  After any run of events from a fresh relay, the
    [ac_in_buffer] of every handler is a proper prefix of
    [b"\r\n\r\n"] (at most three bytes): [handle_read] discards what the
    consumer sends and [async_chat] keeps only a possible start of the
    terminator. *)
Theorem run_in_buffer_bounded (evs : list event) (q : list pystr) (s : Sys) :
  run evs (init_sys q) = Some s ->
  Forall (fun c => exists k, (k < length handler_terminator)%nat /\
                             in_buf c = firstn k handler_terminator) (conns s).
Proof.
  intros H.
  assert (G : inbufs_ok s).
  { assert (H0 : inbufs_ok (init_sys q)) by constructor.
    revert H H0; generalize (init_sys q) as s0.
    induction evs as [|e evs IH]; intros s0 H H0; cbn [run] in H.
    - injection H as <-; exact H0.
    - destruct (step e s0) as [s1|] eqn:E; [|discriminate].
      exact (IH s1 H (step_inbufs_ok e s0 s1 H0 E)). }
  unfold inbufs_ok in G; rewrite Forall_map in G; exact G.
Qed.

Lemma run_in_buffer_bounded_witness :
  run [EvAccept (AccPair true); EvRead 0 (RecvBytes [104; 105; 13; 10; 13; 10; 98; 13; 10])]
      (init_sys []) =
    Some (mkSys 1 [] [mkConn true true [] [] [13; 10] 0 0] 1 []) /\
  Forall (fun c => exists k, (k < length handler_terminator)%nat /\
                             in_buf c = firstn k handler_terminator)
    (conns (mkSys 1 [] [mkConn true true [] [] [13; 10] 0 0] 1 [])).
Proof.
  split; [vm_compute; reflexivity|].
  apply (run_in_buffer_bounded
           [EvAccept (AccPair true); EvRead 0 (RecvBytes [104; 105; 13; 10; 13; 10; 98; 13; 10])]
           []); vm_compute; reflexivity.
Defined.
